(** * Layered configuration resolver (package [config], loader.go)

    A shallow embedding of the loader: the file phase, the environment
    overlay driven by struct tags, the [${VAR}] interpolation walk and the
    defaults hook, together with the properties the specification states
    about them.

    Conventions of the embedding.
    - Go strings are byte strings; they are Rocq [string]s (one [ascii] per
      byte).  The pattern of [expandEnvVar] inspects ASCII bytes only.
      Case mapping and the test for an exported identifier are computed
      on ASCII bytes; on the other bytes they are those of package
      [unicode], kept abstract ([Unicode]).
    - The process environment is a finite map from names to values;
      [os.Getenv] returns the empty string for a name that is not set.
    - A value seen through [reflect] is a tree ([value]); the target is
      assumed to be a tree (no sharing, no cycles), as the data model of
      the specification has it.
    - Of the types, a value keeps its kind, and a map whether its element
      type can hold a value of type [string] (the one fact about named
      types the control flow of the loader depends on, in [SetMapIndex]).
      Two values that differ in the names of their types only are the
      same value here: a string of a named type that the walk stores back
      into an entry of a [map[K]any] is stored as a [string] of the same
      content. *)

From Stdlib Require Import ZArith Ascii String.
From stdpp Require Import base option list strings gmap.


(** ** Bytes and strings *)

(** What the loader takes from package [unicode], on text that is not
    ASCII.  [strings.ToUpper] and [strings.ToLower] map a string rune by
    rune; an ASCII byte is a rune of its own, and the bytes of the other
    runes, well-formed or not, are all outside ASCII: [upper_run] and
    [lower_run] are the two functions on a maximal run of such bytes.
    [exported_start] tells whether an identifier that starts with such a
    byte starts with an upper-case letter. *)
Class Unicode := {
  upper_run : string -> string;
  lower_run : string -> string;
  exported_start : string -> bool
}.

Module Str.

Definition byte_in (lo hi : nat) (c : ascii) : bool :=
  ((lo <=? nat_of_ascii c) && (nat_of_ascii c <=? hi))%nat.

Definition is_upper (c : ascii) : bool := byte_in 65 90 c.
Definition is_lower (c : ascii) : bool := byte_in 97 122 c.
Definition is_digit (c : ascii) : bool := byte_in 48 57 c.

Definition upper_byte (c : ascii) : ascii :=
  if is_lower c then ascii_of_nat (nat_of_ascii c - 32) else c.
Definition lower_byte (c : ascii) : ascii :=
  if is_upper c then ascii_of_nat (nat_of_ascii c + 32) else c.

Definition is_ascii_byte (c : ascii) : bool := (nat_of_ascii c <? 128)%nat.

Definition flush (wide : string -> string) (run : string) : string :=
  match run with
  | EmptyString => EmptyString
  | _ => wide run
  end.

(** A case mapping: [f] on the ASCII bytes, [wide] on the maximal runs of
    bytes outside ASCII; [run] is the run read so far. *)
Fixpoint map_runes (f : ascii -> ascii) (wide : string -> string) (run s : string)
  : string :=
  match s with
  | EmptyString => flush wide run
  | String c r =>
      if is_ascii_byte c
      then flush wide run +:+ String (f c) (map_runes f wide EmptyString r)
      else map_runes f wide (run +:+ String c EmptyString) r
  end.

(** [strings.ToUpper] and [strings.ToLower] *)
Definition ToUpper `{Unicode} (s : string) : string :=
  map_runes upper_byte upper_run EmptyString s.
Definition ToLower `{Unicode} (s : string) : string :=
  map_runes lower_byte lower_run EmptyString s.

Fixpoint drop (n : nat) (s : string) : string :=
  match n, s with
  | O, _ => s
  | S k, String _ r => drop k r
  | S _, EmptyString => EmptyString
  end.

Fixpoint take (n : nat) (s : string) : string :=
  match n, s with
  | S k, String c r => String c (take k r)
  | _, _ => EmptyString
  end.

(** [s[lo:hi]] *)
Definition slice (lo hi : nat) (s : string) : string :=
  take (hi - lo) (drop lo s).

(** [strings.HasPrefix] *)
Fixpoint HasPrefix (s p : string) {struct p} : bool :=
  match p with
  | EmptyString => true
  | String d p' =>
      match s with
      | String c s' => Ascii.eqb c d && HasPrefix s' p'
      | EmptyString => false
      end
  end.

(** [strings.Cut]: the text before and after the first occurrence of a
    non-empty separator. *)
Fixpoint Cut (sep s : string) : option (string * string) :=
  if HasPrefix s sep then Some (EmptyString, drop (String.length sep) s)
  else match s with
       | EmptyString => None
       | String c r =>
           match Cut sep r with
           | Some (a, b) => Some (String c a, b)
           | None => None
           end
       end.

Definition Contains (s sep : string) : bool :=
  match Cut sep s with Some _ => true | None => false end.

(** The longest prefix whose bytes satisfy [p], and what follows it. *)
Fixpoint span (p : ascii -> bool) (s : string) : string * string :=
  match s with
  | EmptyString => (EmptyString, EmptyString)
  | String c r =>
      if p c then let '(a, b) := span p r in (String c a, b)
      else (EmptyString, s)
  end.

End Str.

(** ** The process environment *)

Definition Env := gmap string string.

(** [os.Getenv]: the value of the variable, empty when it is not set (and
    for the empty name, which no environment holds). *)
Definition Getenv (env : Env) (key : string) : string :=
  if decide (key = "") then "" else default "" (env !! key).

(** ** Interpolation of one string: [expandEnvVar] *)

Module Expand.

Definition is_name_start (c : ascii) : bool :=
  Str.is_upper c || Ascii.eqb c "_".
Definition is_name_char (c : ascii) : bool :=
  is_name_start c || Str.is_digit c.

(** First alternative of the pattern, a dollar sign, an opening brace, one
    or more bytes other than a closing brace, and a closing brace, anchored
    at the head of [s]: the matched text.  The content stops at the first
    closing brace and must not be empty. *)
Definition match_braced (s : string) : option string :=
  if Str.HasPrefix s "${" then
    match Str.Cut "}" (Str.drop 2 s) with
    | Some (content, _) =>
        if decide (content = "") then None
        else Some ("${" +:+ content +:+ "}")
    | None => None
    end
  else None.

(** Second alternative, a dollar sign followed by a name (one byte of
    [A-Z_], then as many bytes of [A-Z0-9_] as there are), anchored at the
    head. *)
Definition match_bare (s : string) : option string :=
  match s with
  | String c (String d r) =>
      if Ascii.eqb c "$" && is_name_start d
      then Some (String c (String d (Str.span is_name_char r).1))
      else None
  | _ => None
  end.

(** The whole pattern anchored at the head of [s]; the left alternative
    is preferred. *)
Definition match_here (s : string) : option string :=
  match match_braced s with
  | Some m => Some m
  | None => match_bare s
  end.

(** The variable name and the default a match carries (the first half of
    the function passed to [ReplaceAllStringFunc]). *)
Definition reference (m : string) : string * string :=
  if Str.HasPrefix m "${" then
    let content := Str.slice 2 (String.length m - 1) m in
    if Str.Contains content ":-" then
      match Str.Cut ":-" content with
      | Some (name, dflt) => (name, dflt)
      | None => (content, "")
      end
    else (content, "")
  else (Str.drop 1 m, "").

(** The function passed to [ReplaceAllStringFunc]. *)
Definition replacement (env : Env) (m : string) : string :=
  let '(varName, defaultValue) := reference m in
  let value := Getenv env varName in
  if decide (value ≠ "") then value
  else if decide (defaultValue ≠ "") then defaultValue
  else m.

(** [ReplaceAllStringFunc]: matches are taken leftmost first and do not
    overlap; [skip] counts the bytes of the current match still to be
    passed over. *)
Fixpoint replace_all (env : Env) (skip : nat) (s : string) : string :=
  match s with
  | EmptyString => EmptyString
  | String c r =>
      match skip with
      | S k => replace_all env k r
      | O =>
          match match_here s with
          | Some m => replacement env m +:+ replace_all env (String.length m - 1) r
          | None => String c (replace_all env O r)
          end
      end
  end.

Definition expandEnvVar (env : Env) (s : string) : string :=
  replace_all env 0 s.

End Expand.

(** ** Number parsing: package [strconv] *)

Inductive NumErrKind := ErrSyntax | ErrRange.

(** [strconv.NumError]: the failing function, the text it was given and
    the reason. *)
Record NumError := mkNumError { Func : string; Num : string; Err : NumErrKind }.

Module Strconv.

Definition maxUint64 : Z := (2 ^ 64 - 1)%Z.

Definition digit_val (c : ascii) : Z := (Z.of_nat (nat_of_ascii c) - 48)%Z.

(** The digit loop of [ParseUint] in base 10 with 64 bits: a byte that is
    not a digit is a syntax error, a value above [maxUint64] a range
    error, whichever the scan meets first. *)
Fixpoint scan_digits (n : Z) (s : string) : Z + NumErrKind :=
  match s with
  | EmptyString => inl n
  | String c r =>
      if Str.is_digit c then
        let n1 := (n * 10 + digit_val c)%Z in
        if (maxUint64 <? n1)%Z then inr ErrRange else scan_digits n1 r
      else inr ErrSyntax
  end.

Definition uint_digits (s : string) : Z + NumErrKind :=
  if decide (s = "") then inr ErrSyntax else scan_digits 0 s.

(** [strconv.ParseUint(s, 10, 64)] *)
Definition ParseUint (s : string) : Z + NumError :=
  match uint_digits s with
  | inl n => inl n
  | inr k => inr (mkNumError "ParseUint" s k)
  end.

(** [strconv.ParseInt(s, 10, 64)] *)
Definition ParseInt (s0 : string) : Z + NumError :=
  match s0 with
  | EmptyString => inr (mkNumError "ParseInt" s0 ErrSyntax)
  | String c r =>
      let '(neg, s) :=
        if Ascii.eqb c "+" then (false, r)
        else if Ascii.eqb c "-" then (true, r)
        else (false, s0) in
      match uint_digits s with
      | inr ErrSyntax => inr (mkNumError "ParseInt" s0 ErrSyntax)
      | inr ErrRange => inr (mkNumError "ParseInt" s0 ErrRange)
      | inl un =>
          let cutoff := (2 ^ 63)%Z in
          if negb neg && (cutoff <=? un)%Z then inr (mkNumError "ParseInt" s0 ErrRange)
          else if neg && (cutoff <? un)%Z then inr (mkNumError "ParseInt" s0 ErrRange)
          else inl (if neg then (- un)%Z else un)
      end
  end.

(** [strconv.ParseBool] *)
Definition ParseBool (s : string) : bool + NumError :=
  if bool_decide (s ∈ ["1"; "t"; "T"; "TRUE"; "true"; "True"]) then inl true
  else if bool_decide (s ∈ ["0"; "f"; "F"; "FALSE"; "false"; "False"]) then inl false
  else inr (mkNumError "ParseBool" s ErrSyntax).

End Strconv.

(** Floating point is kept abstract: the type of 64-bit floats, the
    outcome of [strconv.ParseFloat(s, 64)] and the rounding to 32 bits
    that [reflect.Value.SetFloat] performs on a [float32] field. *)
Class FloatOps := {
  float : Type;
  parse_float64 : string -> float + NumErrKind;
  round_float32 : float -> float
}.

(** ** Values as [reflect] sees them *)

Inductive IntKind := Int | Int8 | Int16 | Int32 | Int64.
Inductive UintKind := Uint | Uint8 | Uint16 | Uint32 | Uint64.
Inductive FloatKind := Float32 | Float64.
(** The kinds no phase of the loader looks into. *)
Inductive OtherKind := Uintptr | Complex64 | Complex128 | Chan | FuncKind | UnsafePointer.

(** [reflect.Kind] *)
Inductive Kind :=
  | KInvalid | KBool | KInt (k : IntKind) | KUint (k : UintKind)
  | KFloat (k : FloatKind) | KString | KStruct | KMap | KSlice | KArray
  | KPointer | KInterface | KOther (k : OtherKind).

(** What the loader and [reflect] read of a [reflect.StructField]: the
    identifier, the value of the [env] key of the tag (empty when there is
    none), and whether the field is embedded. *)
Record StructField := mkStructField {
  Name : string;
  TagEnv : string;
  Embedded : bool
}.

(** A field that is not embedded. *)
Abbreviation mkField name tag := (mkStructField name tag false).

(** A field is exported when its identifier starts with an upper-case
    letter. *)
Definition IsExported `{Unicode} (f : StructField) : bool :=
  match Name f with
  | String c _ =>
      if Str.is_ascii_byte c then Str.is_upper c else exported_start (Name f)
  | EmptyString => false
  end.

Section Values.
Context `{Unicode} `{FloatOps}.

(** Integers carry their kind and are kept in its range; [int] and [uint]
    have 64 bits; [time.Duration] is an [Int64].  Mappings are keyed by
    strings, their entries listed once per key, in the order in which
    [MapKeys] returns the keys; a map records whether a value of type
    [string] is assignable to its element type (the type is [string] or an
    interface without methods) or not (a named string type, an interface
    with methods).  A nil map or slice is the empty one. *)
Unset Elimination Schemes.
Inductive value :=
  | VBool (b : bool)
  | VInt (k : IntKind) (n : Z)
  | VUint (k : UintKind) (n : Z)
  | VFloat (k : FloatKind) (x : float)
  | VString (s : string)
  | VStruct (fields : list (StructField * value))
  | VMap (holdsString : bool) (entries : list (string * value))
  | VSlice (elems : list value)
  | VArray (elems : list value)
  | VPtr (pointee : option value)
  | VIface (dyn : option value)
  | VOther (k : OtherKind).
Set Elimination Schemes.

Definition kindOf (v : value) : Kind :=
  match v with
  | VBool _ => KBool
  | VInt k _ => KInt k
  | VUint k _ => KUint k
  | VFloat k _ => KFloat k
  | VString _ => KString
  | VStruct _ => KStruct
  | VMap _ _ => KMap
  | VSlice _ => KSlice
  | VArray _ => KArray
  | VPtr _ => KPointer
  | VIface _ => KInterface
  | VOther k => KOther k
  end.

Definition int_bits (k : IntKind) : Z :=
  match k with Int => 64 | Int8 => 8 | Int16 => 16 | Int32 => 32 | Int64 => 64 end.
Definition uint_bits (k : UintKind) : Z :=
  match k with Uint => 64 | Uint8 => 8 | Uint16 => 16 | Uint32 => 32 | Uint64 => 64 end.

(** The conversions [SetInt], [SetUint] and [SetFloat] make to the field's
    own width: a silent wrap-around, a rounding. *)
Definition wrap_int (k : IntKind) (x : Z) : Z :=
  ((x + 2 ^ (int_bits k - 1)) mod 2 ^ int_bits k - 2 ^ (int_bits k - 1))%Z.
Definition wrap_uint (k : UintKind) (x : Z) : Z := (x mod 2 ^ uint_bits k)%Z.
Definition fit_float (k : FloatKind) (x : float) : float :=
  match k with Float32 => round_float32 x | Float64 => x end.

(** ** Environment overlay *)

(** Why [setFieldValue] failed. *)
Inductive SetError :=
  | ParseFailed (e : NumError)
  | UnsupportedFieldType (k : Kind).

(** [setFieldValue]: the field after the assignment, or the error. *)
Definition setFieldValue (field : value) (raw : string) : value + SetError :=
  match field with
  | VString _ => inl (VString raw)
  | VInt k _ =>
      match Strconv.ParseInt raw with
      | inl intVal => inl (VInt k (wrap_int k intVal))
      | inr e => inr (ParseFailed e)
      end
  | VUint k _ =>
      match Strconv.ParseUint raw with
      | inl uintVal => inl (VUint k (wrap_uint k uintVal))
      | inr e => inr (ParseFailed e)
      end
  | VBool _ =>
      match Strconv.ParseBool raw with
      | inl boolVal => inl (VBool boolVal)
      | inr e => inr (ParseFailed e)
      end
  | VFloat k _ =>
      match parse_float64 raw with
      | inl floatVal => inl (VFloat k (fit_float k floatVal))
      | inr e => inr (ParseFailed (mkNumError "ParseFloat" raw e))
      end
  | _ => inr (UnsupportedFieldType (kindOf field))
  end.

(** Errors of the overlay: the target is not a pointer to a struct, or a
    field could not be set ("failed to set field NAME from env KEY: ..."). *)
Inductive EnvError :=
  | NotStructPointer
  | FieldBindError (name key : string) (cause : SetError).

(** The key of a field below the current prefix: the [env] tag, or the
    upper-cased identifier. *)
Definition envKey (f : StructField) : string :=
  if decide (TagEnv f = "") then Str.ToUpper (Name f) else TagEnv f.

(** The loop of [loadStructFromEnv] over the fields of one struct; [rec]
    is the function itself, for the nested structs.  The result is the
    fields as the loop left them and the error it returned, if any. *)
Section Fields.
Variable env : Env.
Variable rec : value -> string -> value * option EnvError.

Fixpoint loadFields (fs : list (StructField * value)) (prefix : string)
  : list (StructField * value) * option EnvError :=
  match fs with
  | [] => ([], None)
  | (f, x) :: rest =>
      let continue x' :=
        let '(rest', e) := loadFields rest prefix in ((f, x') :: rest', e) in
      if negb (IsExported f) then continue x
      else if decide (envKey f = "-") then continue x
      else
        let fullKey := prefix +:+ envKey f in
        match x with
        | VStruct _ =>
            match rec x (fullKey +:+ "_") with
            | (x', Some e) => ((f, x') :: rest, Some e)
            | (x', None) => continue x'
            end
        | _ =>
            let envValue := Getenv env fullKey in
            if decide (envValue = "") then continue x
            else match setFieldValue x envValue with
                 | inl x' => continue x'
                 | inr e => ((f, x) :: rest, Some (FieldBindError (Name f) fullKey e))
                 end
        end
  end.

End Fields.

(** [loadStructFromEnv] *)
Fixpoint loadStructFromEnv (env : Env) (v : value) (prefix : string)
  : value * option EnvError :=
  match v with
  | VStruct fs =>
      let '(fs', e) := loadFields env (loadStructFromEnv env) fs prefix in
      (VStruct fs', e)
  | _ => (v, None)
  end.

(** [loadFromEnv] *)
Definition loadFromEnv (env : Env) (prefix : string) (config : option value)
  : option value * option EnvError :=
  match config with
  | Some (VPtr (Some (VStruct fs))) =>
      let '(s', e) := loadStructFromEnv env (VStruct fs) prefix in
      (Some (VPtr (Some s')), e)
  | _ => (config, Some NotStructPointer)
  end.

(** ** Interpolation walk *)

(** Whether a value is a struct, or a pointer that leads to one. *)
Fixpoint leadsToStruct (v : value) : bool :=
  match v with
  | VStruct _ => true
  | VPtr (Some x) => leadsToStruct x
  | _ => false
  end.

(** The read-only flag of the value [x] of the field [f], as it bears on
    what the walk does below, in a struct whose own flag is [ro].
    [reflect.Value.Field] hands down the flag of the struct when it is
    the sticky one ([flagStickyRO]); an unexported field gets the sticky
    flag, or [flagEmbedRO] when it is embedded.  The embedded flag makes
    the value itself read-only, and is handed down by [Elem] on a pointer
    but not by [Field]: the fields of an embedded unexported struct are
    not read-only for it.  [Index], [MapIndex] and [Elem] on an interface
    turn either flag into the sticky one. *)
Definition fieldRO (ro : bool) (f : StructField) (x : value) : bool :=
  ro || (negb (IsExported f) && negb (Embedded f && leadsToStruct x)).

(** [substituteValue].  [addr] and [ro] are the two flags [reflect] keeps
    with a value: whether it is addressable, and whether it is read-only
    (see [fieldRO]); [CanSet] is [addr && negb ro].  The result is [None]
    when the walk panics, in [SetMapIndex]: on a read-only map, or on a
    map whose element type cannot hold a [string]. *)
Fixpoint substituteValue (env : Env) (addr ro : bool) (v : value) {struct v}
  : option value :=
  match v with
  | VString s =>
      Some (if addr && negb ro then VString (Expand.expandEnvVar env s) else v)
  | VStruct fs =>
      VStruct <$>
        mapM (λ '(f, x), pair f <$> substituteValue env addr (fieldRO ro f x) x) fs
  | VMap ok es =>
      let SetMapIndex (elem : value) : option value :=
        if ro || negb ok then None else Some elem in
      VMap ok <$>
        mapM (λ '(key, val),
                pair key <$>
                  match val with
                  | VString s => SetMapIndex (VString (Expand.expandEnvVar env s))
                  | VIface (Some (VString s)) =>
                      SetMapIndex (VIface (Some (VString (Expand.expandEnvVar env s))))
                  | VIface (Some y) => (VIface ∘ Some) <$> substituteValue env false ro y
                  | VIface None => Some val
                  | _ => substituteValue env false ro val
                  end) es
  | VSlice xs => VSlice <$> mapM (substituteValue env true ro) xs
  | VArray xs => VArray <$> mapM (substituteValue env addr ro) xs
  | VPtr (Some x) => (VPtr ∘ Some) <$> substituteValue env true ro x
  | VIface (Some x) => (VIface ∘ Some) <$> substituteValue env false ro x
  | _ => Some v
  end.

(** A loop that stops at the first step that panics: the elements as the
    loop leaves them, and whether it panicked. *)
Fixpoint walkList {A} (step : A -> A * bool) (l : list A) : list A * bool :=
  match l with
  | [] => ([], false)
  | a :: r =>
      let '(a', panicked) := step a in
      if panicked then (a' :: r, true)
      else let '(r', p) := walkList step r in (a' :: r', p)
  end.

(** The walk of [substituteValue] once more, with what it leaves when it
    panics: the value as the walk left it, the strings set before the
    panic rewritten, and whether it panicked. *)
Fixpoint walk (env : Env) (addr ro : bool) (v : value) {struct v} : value * bool :=
  match v with
  | VString s =>
      (if addr && negb ro then VString (Expand.expandEnvVar env s) else v, false)
  | VStruct fs =>
      let '(fs', p) :=
        walkList (λ '(f, x), let '(x', p) := walk env addr (fieldRO ro f x) x in
                             ((f, x'), p)) fs in
      (VStruct fs', p)
  | VMap ok es =>
      let SetMapIndex (old elem : value) : value * bool :=
        if ro || negb ok then (old, true) else (elem, false) in
      let '(es', p) :=
        walkList (λ '(key, val),
                    let '(val', p) :=
                      match val with
                      | VString s => SetMapIndex val (VString (Expand.expandEnvVar env s))
                      | VIface (Some (VString s)) =>
                          SetMapIndex val
                            (VIface (Some (VString (Expand.expandEnvVar env s))))
                      | VIface (Some y) =>
                          let '(y', p) := walk env false ro y in (VIface (Some y'), p)
                      | VIface None => (val, false)
                      | _ => walk env false ro val
                      end in
                    ((key, val'), p)) es in
      (VMap ok es', p)
  | VSlice xs => let '(xs', p) := walkList (walk env true ro) xs in (VSlice xs', p)
  | VArray xs => let '(xs', p) := walkList (walk env addr ro) xs in (VArray xs', p)
  | VPtr (Some x) => let '(x', p) := walk env true ro x in (VPtr (Some x'), p)
  | VIface (Some x) => let '(x', p) := walk env false ro x in (VIface (Some x'), p)
  | _ => (v, false)
  end.

Inductive SubstError := NotPointer.

Inductive SubstOutcome :=
  | SubstDone (config : option value)
  | SubstFailed (e : SubstError)
  | SubstPanic.

(** [substituteEnvVars] *)
Definition substituteEnvVars (env : Env) (config : option value) : SubstOutcome :=
  match config with
  | Some (VPtr (Some x)) =>
      match substituteValue env true false x with
      | Some x' => SubstDone (Some (VPtr (Some x')))
      | None => SubstPanic
      end
  | Some (VPtr None) => SubstDone config
  | _ => SubstFailed NotPointer
  end.

(** The target as a panic of [substituteEnvVars] leaves it. *)
Definition interrupted (env : Env) (config : option value) : option value :=
  match config with
  | Some (VPtr (Some x)) => Some (VPtr (Some (walk env true false x).1))
  | _ => config
  end.

(** ** File phase *)

(** [os.ReadFile]: the bytes, an error for which [os.IsNotExist] holds, or
    another error. *)
Inductive ReadResult :=
  | FileData (data : string)
  | NotExist
  | ReadFailure (cause : string).

(** What the loader takes from the outside: the environment, the file
    system and the two decoders.  A decoder returns the target as it left
    it and its error, if any. *)
Record World := mkWorld {
  environ : Env;
  ReadFile : string -> ReadResult;
  yamlUnmarshal : string -> option value -> option value * option string;
  jsonUnmarshal : string -> option value -> option value * option string
}.

Fixpoint has_separator (s : string) : bool :=
  match s with
  | EmptyString => false
  | String c r => Ascii.eqb c "/" || has_separator r
  end.

(** [filepath.Ext]: the suffix that starts at the last dot of the last
    element of the path, empty when there is no such dot (elements are
    separated by slashes). *)
Fixpoint Ext (path : string) : string :=
  match path with
  | EmptyString => EmptyString
  | String c r =>
      match Ext r with
      | EmptyString =>
          if Ascii.eqb c "." && negb (has_separator r) then path else EmptyString
      | e => e
      end
  end.

Inductive FileError :=
  | ReadFailed (cause : string)
  | ParseYAMLFailed (cause : string)
  | ParseJSONFailed (cause : string)
  | UnsupportedFormat (ext : string).

(** [loadFromFile] *)
Definition loadFromFile (w : World) (configPath : string) (config : option value)
  : option value * option FileError :=
  match ReadFile w configPath with
  | NotExist => (config, None)
  | ReadFailure cause => (config, Some (ReadFailed cause))
  | FileData data =>
      let ext := Str.ToLower (Ext configPath) in
      if bool_decide (ext ∈ [".yaml"; ".yml"]) then
        let '(config', e) := yamlUnmarshal w data config in
        (config', ParseYAMLFailed <$> e)
      else if decide (ext = ".json") then
        let '(config', e) := jsonUnmarshal w data config in
        (config', ParseJSONFailed <$> e)
      else (config, Some (UnsupportedFormat ext))
  end.

(** ** [Load] *)

Record Loader := NewLoader { configPath : string; envPrefix : string }.

(** The argument of [Load]: the dynamic value of [config] ([None] for a
    nil interface) and, when its type has the method, what [SetDefaults]
    does to it. *)
Record Target := mkTarget {
  config : option value;
  SetDefaults : option (value -> value)
}.

Inductive LoadError :=
  | FromFile (e : FileError)
  | FromEnvironment (e : EnvError)
  | FromSubstitution (e : SubstError).

Inductive Result :=
  | Returned (err : option LoadError)
  | Panicked.

(** The calls [Load] makes, in order. *)
Inductive Call :=
  | CallLoadFromFile | CallLoadFromEnv | CallSubstituteEnvVars | CallSetDefaults.

Record Outcome := mkOutcome {
  result : Result;
  final : option value;
  calls : list Call
}.

Definition filePhase (w : World) (l : Loader) (c : option value)
  : option value * option FileError * list Call :=
  if decide (configPath l ≠ "")
  then (loadFromFile w (configPath l) c, [CallLoadFromFile])
  else (c, None, []).

Definition defaultsHook (t : Target) (c : option value) : option value * list Call :=
  match SetDefaults t, c with
  | Some hook, Some v => (Some (hook v), [CallSetDefaults])
  | _, _ => (c, [])
  end.

Definition Load (w : World) (l : Loader) (t : Target) : Outcome :=
  let '(c1, e1, k1) := filePhase w l (config t) in
  match e1 with
  | Some e => mkOutcome (Returned (Some (FromFile e))) c1 k1
  | None =>
      let '(c2, e2) := loadFromEnv (environ w) (envPrefix l) c1 in
      let k2 := k1 ++ [CallLoadFromEnv] in
      match e2 with
      | Some e => mkOutcome (Returned (Some (FromEnvironment e))) c2 k2
      | None =>
          let k3 := k2 ++ [CallSubstituteEnvVars] in
          match substituteEnvVars (environ w) c2 with
          | SubstFailed e => mkOutcome (Returned (Some (FromSubstitution e))) c2 k3
          | SubstPanic => mkOutcome Panicked (interrupted (environ w) c2) k3
          | SubstDone c3 =>
              let '(c4, k4) := defaultsHook t c3 in
              mkOutcome (Returned None) c4 (k3 ++ k4)
          end
      end
  end.

(** ** Induction on values *)

Section value_ind.
Variable P : value -> Prop.
Hypothesis Hbool : ∀ b, P (VBool b).
Hypothesis Hint : ∀ k n, P (VInt k n).
Hypothesis Huint : ∀ k n, P (VUint k n).
Hypothesis Hfloat : ∀ k x, P (VFloat k x).
Hypothesis Hstring : ∀ s, P (VString s).
Hypothesis Hstruct : ∀ fs, Forall (λ p, P p.2) fs → P (VStruct fs).
Hypothesis Hmap : ∀ ok es, Forall (λ p, P p.2) es → P (VMap ok es).
Hypothesis Hslice : ∀ xs, Forall P xs → P (VSlice xs).
Hypothesis Harray : ∀ xs, Forall P xs → P (VArray xs).
Hypothesis Hptr : ∀ x, P x → P (VPtr (Some x)).
Hypothesis Hnil : P (VPtr None).
Hypothesis Hiface : ∀ x, P x → P (VIface (Some x)).
Hypothesis Hnone : P (VIface None).
Hypothesis Hother : ∀ k, P (VOther k).

Fixpoint value_ind (v : value) : P v :=
  let fix pairs {A} (l : list (A * value)) : Forall (λ p, P p.2) l :=
    match l with
    | [] => Forall_nil_2 _
    | (a, x) :: r => Forall_cons_2 (λ p, P p.2) (a, x) r (value_ind x) (pairs r)
    end in
  let fix all (l : list value) : Forall P l :=
    match l with
    | [] => Forall_nil_2 _
    | x :: r => Forall_cons_2 P x r (value_ind x) (all r)
    end in
  match v with
  | VBool b => Hbool b
  | VInt k n => Hint k n
  | VUint k n => Huint k n
  | VFloat k x => Hfloat k x
  | VString s => Hstring s
  | VStruct fs => Hstruct fs (pairs fs)
  | VMap ok es => Hmap ok es (pairs es)
  | VSlice xs => Hslice xs (all xs)
  | VArray xs => Harray xs (all xs)
  | VPtr (Some x) => Hptr x (value_ind x)
  | VPtr None => Hnil
  | VIface (Some x) => Hiface x (value_ind x)
  | VIface None => Hnone
  | VOther k => Hother k
  end.

End value_ind.

(** ** Positions in the target *)

(** The field reached from the fields [fs] of a struct by a path of field
    indices, each but the last one entering a nested struct. *)
Fixpoint fieldAt (fs : list (StructField * value)) (p : list nat)
  : option (StructField * value) :=
  match p with
  | [] => None
  | i :: q =>
      match fs !! i with
      | Some (f, x) =>
          match q, x with
          | [], _ => Some (f, x)
          | _ :: _, VStruct sub => fieldAt sub q
          | _ :: _, _ => None
          end
      | None => None
      end
  end.

(** The fields on the way, the one reached included. *)
Fixpoint fieldsAlong (fs : list (StructField * value)) (p : list nat)
  : option (list StructField) :=
  match p with
  | [] => None
  | i :: q =>
      match fs !! i with
      | Some (f, x) =>
          match q, x with
          | [], _ => Some [f]
          | _ :: _, VStruct sub => cons f <$> fieldsAlong sub q
          | _ :: _, _ => None
          end
      | None => None
      end
  end.

(** The fields the overlay looks at: settable and without the sentinel. *)
Definition visited (f : StructField) : bool :=
  IsExported f && negb (bool_decide (envKey f = "-")).

Definition isStruct (v : value) : bool :=
  match v with VStruct _ => true | _ => false end.

(** The scalar kinds [setFieldValue] supports. *)
Definition isScalar (v : value) : bool :=
  match v with
  | VBool _ | VInt _ _ | VUint _ _ | VFloat _ _ | VString _ => true
  | _ => false
  end.

(** The environment key the overlay looks up for the field at a path, as
    the walk computes it on its way down; [None] when the walk does not
    get there (a field on the way is skipped) or the field is a struct. *)
Fixpoint leafKey (prefix : string) (fs : list (StructField * value)) (p : list nat)
  : option string :=
  match p with
  | [] => None
  | i :: q =>
      match fs !! i with
      | Some (f, x) =>
          if visited f then
            let fullKey := prefix +:+ envKey f in
            match x with
            | VStruct sub => leafKey (fullKey +:+ "_") sub q
            | _ => match q with [] => Some fullKey | _ :: _ => None end
            end
          else None
      | None => None
      end
  end.


(** One step from a value to a part of it. *)
Inductive Step :=
  | SField (i : nat)    (* the i-th field of a struct *)
  | SIndex (i : nat)    (* the i-th element of a slice or an array *)
  | SEntry (i : nat)    (* the value of the i-th entry of a map *)
  | SDeref              (* what a pointer points to *)
  | SDyn.               (* what an interface slot holds *)

Definition stepInto (v : value) (st : Step) : option value :=
  match st, v with
  | SField i, VStruct fs => snd <$> fs !! i
  | SIndex i, VSlice xs => xs !! i
  | SIndex i, VArray xs => xs !! i
  | SEntry i, VMap _ es => snd <$> es !! i
  | SDeref, VPtr o => o
  | SDyn, VIface o => o
  | _, _ => None
  end.

Fixpoint valueAt (v : value) (p : list Step) : option value :=
  match p with
  | [] => Some v
  | st :: q => stepInto v st ≫= λ x, valueAt x q
  end.

(** Whether the walk runs to its end: no read-only map, and no map whose
    element type cannot hold a [string], has a string among its values. *)
Fixpoint completes (ro : bool) (v : value) : bool :=
  match v with
  | VStruct fs => forallb (λ '(f, x), completes (fieldRO ro f x) x) fs
  | VMap ok es =>
      forallb (λ '(_, x),
                 match x with
                 | VString _ => negb ro && ok
                 | VIface (Some (VString _)) => negb ro && ok
                 | VIface (Some y) => completes ro y
                 | _ => completes ro x
                 end) es
  | VSlice xs => forallb (completes ro) xs
  | VArray xs => forallb (completes ro) xs
  | VPtr (Some x) => completes ro x
  | VIface (Some x) => completes ro x
  | _ => true
  end.

(** A value with every string in it blanked: what is left is all that is
    not a string (the shape, the field metadata, the map keys, the other
    leaves). *)
Fixpoint skeleton (v : value) : value :=
  match v with
  | VString _ => VString ""
  | VStruct fs => VStruct (prod_map id skeleton <$> fs)
  | VMap ok es => VMap ok (prod_map id skeleton <$> es)
  | VSlice xs => VSlice (skeleton <$> xs)
  | VArray xs => VArray (skeleton <$> xs)
  | VPtr (Some x) => VPtr (Some (skeleton x))
  | VIface (Some x) => VIface (Some (skeleton x))
  | _ => v
  end.

(** What interpolation does to a scalar field it can set. *)
Definition expandLeaf (env : Env) (v : value) : value :=
  match v with
  | VString s => VString (Expand.expandEnvVar env s)
  | _ => v
  end.

(** What the overlay does to one field, when it gets to it. *)
Definition fieldOutcome (env : Env) (rec : value -> string -> value * option EnvError)
    (prefix : string) (f : StructField) (x : value) : value * option EnvError :=
  if visited f then
    let fullKey := prefix +:+ envKey f in
    if isStruct x then rec x (fullKey +:+ "_")
    else if decide (Getenv env fullKey = "") then (x, None)
    else match setFieldValue x (Getenv env fullKey) with
         | inl x' => (x', None)
         | inr e => (x, Some (FieldBindError (Name f) fullKey e))
         end
  else (x, None).

(** What the walk does to the value of a map entry. *)
Definition entryOutcome (env : Env) (ro ok : bool) (val : value) : option value :=
  match val with
  | VString s =>
      if ro || negb ok then None else Some (VString (Expand.expandEnvVar env s))
  | VIface (Some (VString s)) =>
      if ro || negb ok then None
      else Some (VIface (Some (VString (Expand.expandEnvVar env s))))
  | _ => substituteValue env false ro val
  end.

(** The same, in the walk that keeps what a panic leaves. *)
Definition entryWalk (env : Env) (ro ok : bool) (val : value) : value * bool :=
  match val with
  | VString s =>
      if ro || negb ok then (val, true) else (VString (Expand.expandEnvVar env s), false)
  | VIface (Some (VString s)) =>
      if ro || negb ok then (val, true)
      else (VIface (Some (VString (Expand.expandEnvVar env s))), false)
  | _ => walk env false ro val
  end.

End Values.

(** ** Sample inputs *)

(** The floating-point operations for targets without floating-point
    fields, as those of the examples are: there is no float, and no text
    parses as one. *)
(** The part of [unicode] for the examples, whose identifiers and paths
    are ASCII: it is never consulted. *)
Definition ascii_text : Unicode := {|
  upper_run s := s;
  lower_run s := s;
  exported_start _ := false
|}.

Definition no_floats : FloatOps := {|
  float := Empty_set;
  parse_float64 _ := inr ErrSyntax;
  round_float32 x := x
|}.

Module Sample.
#[local] Existing Instance ascii_text.
#[local] Existing Instance no_floats.

(** No file anywhere; decoders that leave the target alone. *)
Definition world (env : Env) : World :=
  mkWorld env (λ _, NotExist) (λ _ c, (c, None)) (λ _ c, (c, None)).

(** A file that exists under every name. *)
Definition worldWithFile (env : Env) (data : string) : World :=
  mkWorld env (λ _, FileData data) (λ _ c, (c, None)) (λ _ c, (c, None)).

Definition target (fs : list (StructField * value)) : Target :=
  mkTarget (Some (VPtr (Some (VStruct fs)))) None.

(** [struct { Server struct { Timeout time.Duration } }] *)
Definition server : list (StructField * value) :=
  [(mkField "Server" "", VStruct [(mkField "Timeout" "", VInt Int64 0)])].

(** [struct { Host string }] *)
Definition host : list (StructField * value) :=
  [(mkField "Host" "", VString "localhost")].

(** [struct { Port int; Secret string `env:"-"` }] *)
Definition secret : list (StructField * value) :=
  [(mkField "Port" "", VInt Int 0); (mkField "Secret" "-", VString "s3cr3t")].

(** [struct { Port int; Tags []string }] *)
Definition tags : list (StructField * value) :=
  [(mkField "Port" "", VInt Int 0); (mkField "Tags" "", VSlice [])].

(** [struct { name string; Extra any; Hosts []string; Labels map[string]string }] *)
Definition mixed : list (StructField * value) :=
  [(mkField "name" "", VString "$HOME");
   (mkField "Extra" "", VIface (Some (VString "$HOME")));
   (mkField "Hosts" "", VSlice [VString "$HOME"]);
   (mkField "Labels" "", VMap true [("home", VString "${HOME}")])].

(** [struct { Name string; labels map[string]string }], the map not empty *)
Definition hidden : list (StructField * value) :=
  [(mkField "Name" "", VString "svc");
   (mkField "labels" "", VMap true [("region", VString "eu")])].

Definition home : Env := {[ "HOME" := "/root" ]}.

End Sample.

(** ** Shapes of strings under [expandEnvVar] *)

Module ExpandShape.
Import Expand.

(** No dollar sign of [s] starts a reference: none is followed by an
    opening brace or by a byte of [A-Z_]. *)
Fixpoint inert (s : string) : bool :=
  match s with
  | EmptyString => true
  | String c r =>
      (negb (Ascii.eqb c "$") ||
       match r with
       | String d _ => negb (Ascii.eqb d "{" || is_name_start d)
       | EmptyString => true
       end) && inert r
  end.

Fixpoint all_bytes (p : ascii -> bool) (s : string) : bool :=
  match s with
  | EmptyString => true
  | String c r => p c && all_bytes p r
  end.

(** A name as the second alternative of the pattern takes it. *)
Definition is_name (s : string) : bool :=
  match s with
  | String c r => is_name_start c && all_bytes is_name_char r
  | EmptyString => false
  end.

(** Whether the text goes on with a byte a name could take in. *)
Definition continues_name (s : string) : bool :=
  match s with
  | String c _ => is_name_char c
  | EmptyString => false
  end.

(** How a reference is resolved, as the function passed to
    [ReplaceAllStringFunc] does it once name and default are known. *)
Definition resolve (env : Env) (name dflt m : string) : string :=
  if decide (Getenv env name ≠ "") then Getenv env name
  else if decide (dflt ≠ "") then dflt else m.

End ExpandShape.

(** An extension proper: no dot and no slash in it. *)
Definition plain_ext (e : string) : bool :=
  ExpandShape.all_bytes (λ c, negb (Ascii.eqb c "." || Ascii.eqb c "/")) e.

(** ** The convenience functions *)

Section Convenience.
Context `{Unicode} `{FloatOps}.

(** [LoadFromFile], [LoadFromEnv] and [LoadWithDefaults] *)
Definition LoadFromFile (w : World) (path : string) (t : Target) : Outcome :=
  Load w (NewLoader path "") t.

Definition LoadFromEnv (w : World) (envPrefix : string) (t : Target) : Outcome :=
  Load w (NewLoader "" envPrefix) t.

Definition LoadWithDefaults (w : World) (configPath envPrefix : string) (t : Target)
  : Outcome :=
  Load w (NewLoader configPath envPrefix) t.

(** Whether every string held anywhere in a value satisfies [P]. *)
Fixpoint allStrings (P : string -> bool) (v : value) : bool :=
  match v with
  | VString s => P s
  | VStruct fs => forallb (λ '(_, x), allStrings P x) fs
  | VMap _ es => forallb (λ '(_, x), allStrings P x) es
  | VSlice xs => forallb (allStrings P) xs
  | VArray xs => forallb (allStrings P) xs
  | VPtr (Some x) => allStrings P x
  | VIface (Some x) => allStrings P x
  | _ => true
  end.

(** Whether every field of every struct in a value is exported. *)
Fixpoint exportedOnly (v : value) : bool :=
  match v with
  | VStruct fs => forallb (λ '(f, x), IsExported f && exportedOnly x) fs
  | VMap _ es => forallb (λ '(_, x), exportedOnly x) es
  | VSlice xs => forallb exportedOnly xs
  | VArray xs => forallb exportedOnly xs
  | VPtr (Some x) => exportedOnly x
  | VIface (Some x) => exportedOnly x
  | _ => true
  end.

(** Whether the element type of every map in a value can hold a value of
    type [string]. *)
Fixpoint mapsHoldStrings (v : value) : bool :=
  match v with
  | VStruct fs => forallb (λ '(_, x), mapsHoldStrings x) fs
  | VMap ok es => ok && forallb (λ '(_, x), mapsHoldStrings x) es
  | VSlice xs => forallb mapsHoldStrings xs
  | VArray xs => forallb mapsHoldStrings xs
  | VPtr (Some x) => mapsHoldStrings x
  | VIface (Some x) => mapsHoldStrings x
  | _ => true
  end.

End Convenience.

(** ** The base configuration: base.go *)

(** What [SetObservabilityDefaults] needs of [float64]: the test [x == 0]
    and the constant [1.0]. *)
Class FloatConsts `{FloatOps} := {
  float_is_zero : float -> bool;
  float_one : float
}.

Module ServerConfig.
Record t := mk {
  Port : Z;
  Host : string;
  ReadTimeout : Z;
  WriteTimeout : Z;
  IdleTimeout : Z
}.
End ServerConfig.

Module LoggingConfig.
Record t := mk { Level : string; Format : string }.
End LoggingConfig.

Module MetricsConfig.
Record t := mk { Enabled : bool; Port : Z; Path : string }.
End MetricsConfig.

Module TracingConfig.
Section WithFloats.
Context `{FloatOps}.
Record t := mk { Enabled : bool; Endpoint : string; Sampler : float }.
End WithFloats.
Arguments mk {_}.
End TracingConfig.

Module ObservabilityConfig.
Section WithFloats.
Context `{FloatOps}.
Record t := mk {
  Logging : LoggingConfig.t;
  Metrics : MetricsConfig.t;
  Tracing : TracingConfig.t
}.
End WithFloats.
Arguments mk {_}.
End ObservabilityConfig.

Module BaseConfig.
Section WithFloats.
Context `{FloatOps}.
Record t := mk { Server : ServerConfig.t; Observability : ObservabilityConfig.t }.
End WithFloats.
Arguments mk {_}.
End BaseConfig.

Section Base.
Context `{Unicode} `{FloatConsts}.

(** [time.Second], in nanoseconds *)
Definition Second : Z := 1000000000%Z.

(** [SetServerDefaults]: each test reads the field it guards only. *)
Definition SetServerDefaults (c : BaseConfig.t) : BaseConfig.t :=
  let s := BaseConfig.Server c in
  BaseConfig.mk
    (ServerConfig.mk
       (if decide (ServerConfig.Port s = 0%Z) then 8080%Z else ServerConfig.Port s)
       (if decide (ServerConfig.Host s = "") then "0.0.0.0" else ServerConfig.Host s)
       (if decide (ServerConfig.ReadTimeout s = 0%Z) then (60 * Second)%Z
        else ServerConfig.ReadTimeout s)
       (if decide (ServerConfig.WriteTimeout s = 0%Z) then (60 * Second)%Z
        else ServerConfig.WriteTimeout s)
       (if decide (ServerConfig.IdleTimeout s = 0%Z) then (120 * Second)%Z
        else ServerConfig.IdleTimeout s))
    (BaseConfig.Observability c).

(** [SetObservabilityDefaults] *)
Definition SetObservabilityDefaults (c : BaseConfig.t) : BaseConfig.t :=
  let o := BaseConfig.Observability c in
  let lg := ObservabilityConfig.Logging o in
  let m := ObservabilityConfig.Metrics o in
  let tr := ObservabilityConfig.Tracing o in
  BaseConfig.mk (BaseConfig.Server c)
    (ObservabilityConfig.mk
       (LoggingConfig.mk
          (if decide (LoggingConfig.Level lg = "") then "info" else LoggingConfig.Level lg)
          (if decide (LoggingConfig.Format lg = "") then "json"
           else LoggingConfig.Format lg))
       (MetricsConfig.mk (MetricsConfig.Enabled m)
          (if decide (MetricsConfig.Port m = 0%Z) then 9090%Z else MetricsConfig.Port m)
          (if decide (MetricsConfig.Path m = "") then "/metrics" else MetricsConfig.Path m))
       (TracingConfig.mk (TracingConfig.Enabled tr) (TracingConfig.Endpoint tr)
          (if float_is_zero (TracingConfig.Sampler tr) then float_one
           else TracingConfig.Sampler tr))).



End Base.

(** ** More sample inputs *)

(** Floating-point numbers for the samples of the base configuration: the
    whole numbers, each standing for the float of its value.  No text is
    parsed: these samples set no floating-point field from the
    environment. *)
Definition whole_floats : FloatOps := {|
  float := Z;
  parse_float64 _ := inr ErrSyntax;
  round_float32 x := x
|}.

Definition whole_consts : @FloatConsts whole_floats :=
  @Build_FloatConsts whole_floats (λ x, Z.eqb x 0) 1%Z.

Module BaseSample.
#[local] Existing Instance ascii_text.
#[local] Existing Instance whole_floats.

(** A [BaseConfig] with the port and the logging level set, the rest
    zero. *)
Definition partial : BaseConfig.t :=
  BaseConfig.mk
    (ServerConfig.mk 9000 "" 0 0 0)
    (ObservabilityConfig.mk
       (LoggingConfig.mk "debug" "")
       (MetricsConfig.mk true 0 "")
       (TracingConfig.mk false "" 0%Z)).

End BaseSample.

Module Sample2.
#[local] Existing Instance ascii_text.
#[local] Existing Instance no_floats.

(** [struct { Labels map[string]string; Hosts []string }] *)
Definition labels : list (StructField * value) :=
  [(mkField "Labels" "", VMap true [("home", VString "${HOME}")]);
   (mkField "Hosts" "", VSlice [VString "$HOME"])].

(** [struct { Host string; Port int; Name string }] *)
Definition service : list (StructField * value) :=
  [(mkField "Host" "", VString "localhost");
   (mkField "Port" "", VInt Int 0);
   (mkField "Name" "", VString "")].

End Sample2.

(** * Properties *)

(** ** Strings *)

Lemma app_String c s t : String c s +:+ t = String c (s +:+ t).
Proof. reflexivity. Qed.
Lemma app_empty_l t : "" +:+ t = t.
Proof. reflexivity. Qed.
Lemma app_assoc_s (s t u : string) : (s +:+ t) +:+ u = s +:+ t +:+ u.
Proof. induction s as [|c s IH]; [done|]. rewrite !app_String. by f_equal. Qed.

(** ** The scan of [expandEnvVar] *)

Module ExpandFacts.
Import Expand.

Lemma length_app (s t : string) :
  String.length (s +:+ t) = (String.length s + String.length t)%nat.
Proof. induction s as [|c s IH]; [done|]. rewrite app_String. simpl. by rewrite IH. Qed.

Lemma take_app (s t : string) : Str.take (String.length s) (s +:+ t) = s.
Proof. induction s as [|c s IH]; [by destruct t|]. rewrite app_String. simpl. by rewrite IH. Qed.

Lemma prefix_drop p s :
  Str.HasPrefix s p = true → s = p +:+ Str.drop (String.length p) s.
Proof.
  revert s. induction p as [|d p IH]; intros s Hp; [done|].
  destruct s as [|c s]; [done|]. simpl in Hp.
  apply andb_true_iff in Hp as [->%Ascii.eqb_eq Hp].
  rewrite app_String. simpl. f_equal. by apply IH.
Qed.

Lemma Cut_unfold sep s :
  Str.Cut sep s =
    if Str.HasPrefix s sep then Some ("", Str.drop (String.length sep) s)
    else match s with
         | EmptyString => None
         | String c r =>
             match Str.Cut sep r with
             | Some (a, b) => Some (String c a, b)
             | None => None
             end
         end.
Proof. by destruct s. Qed.

Lemma Cut_app sep s a b : Str.Cut sep s = Some (a, b) → s = a +:+ sep +:+ b.
Proof.
  revert a b. induction s as [|c s IH]; intros a b; rewrite Cut_unfold;
    destruct (Str.HasPrefix _ sep) eqn:Hp; try done;
    try (intros [= <- <-]; by apply prefix_drop).
  destruct (Str.Cut sep s) as [[a' b']|]; [|done].
  intros [= <- <-]. rewrite app_String. f_equal. by apply IH.
Qed.

(** A match is a non-empty prefix of the text it is found in. *)
Lemma match_here_prefix s m : match_here s = Some m → ∃ t, s = m +:+ t ∧ m ≠ "".
Proof.
  unfold match_here, match_braced, match_bare.
  destruct (Str.HasPrefix s "${") eqn:Hp.
  - apply prefix_drop in Hp. simpl String.length in Hp.
    destruct (Str.Cut "}" (Str.drop 2 s)) as [[content rest]|] eqn:Hc.
    + apply Cut_app in Hc. destruct (decide (content = "")).
      * intros Hm. rewrite Hp in Hm. simpl in Hm. by destruct (is_name_start "{").
      * intros [= <-]. exists rest. split; [|done].
        rewrite Hp at 1. rewrite Hc. by rewrite !app_assoc_s.
    + intros Hm. rewrite Hp in Hm. simpl in Hm. by destruct (is_name_start "{").
  - destruct s as [|c [|d r]]; try done.
    destruct (Ascii.eqb c "$" && is_name_start d); [|done].
    intros [= <-]. exists (Str.span is_name_char r).2. split; [|done].
    rewrite !app_String. do 2 f_equal.
    clear. induction r as [|c r IH]; [done|]. simpl.
    destruct (is_name_char c); [|done].
    destruct (Str.span is_name_char r). simpl in *. rewrite app_String. by f_equal.
Qed.

Lemma replace_all_skip env m t :
  replace_all env (String.length m) (m +:+ t) = replace_all env 0 t.
Proof. induction m as [|c m IH]; [by destruct t|]. by rewrite app_String. Qed.

(** The two equations of the scan. *)
Lemma expand_match env m t :
  match_here (m +:+ t) = Some m →
  expandEnvVar env (m +:+ t) = replacement env m +:+ expandEnvVar env t.
Proof.
  intros Hm. destruct (match_here_prefix _ _ Hm) as (_ & _ & Hne).
  destruct m as [|c m]; [done|]. unfold expandEnvVar.
  rewrite app_String in *. simpl. rewrite Hm. f_equal.
  change (String.length (String c m) - 1)%nat with (String.length m - 0)%nat.
  rewrite Nat.sub_0_r. apply replace_all_skip.
Qed.

Lemma expand_no_match env c s :
  match_here (String c s) = None →
  expandEnvVar env (String c s) = String c (expandEnvVar env s).
Proof. intros Hm. unfold expandEnvVar. simpl. by rewrite Hm. Qed.

Lemma expand_other_byte env c s :
  c ≠ "$"%char → expandEnvVar env (String c s) = String c (expandEnvVar env s).
Proof.
  intros Hc. apply expand_no_match.
  apply Ascii.eqb_neq in Hc.
  unfold match_here, match_braced, match_bare. simpl. rewrite Hc. by destruct s.
Qed.

(** A string without a dollar sign is returned as it is. *)
Lemma expand_plain env s :
  (∀ t u, s ≠ t +:+ String "$" u) → expandEnvVar env s = s.
Proof.
  induction s as [|c s IH]; intros Hs; [done|].
  rewrite expand_other_byte.
  - f_equal. apply IH. intros t u ->. by apply (Hs (String c t) u).
  - intros ->. by apply (Hs "" s).
Qed.

(** What a braced match refers to: the name, and the default after the
    first [:-] if there is one. *)
Lemma reference_braced content :
  reference ("${" +:+ content +:+ "}") =
    match Str.Cut ":-" content with
    | Some (name, dflt) => (name, dflt)
    | None => (content, "")
    end.
Proof.
  change ("${" +:+ content +:+ "}") with (String "$" (String "{" (content +:+ "}"))).
  unfold reference.
  change (Str.HasPrefix (String "$" (String "{" (content +:+ "}"))) "${") with true.
  cbv iota.
  assert (Str.slice 2 (String.length (String "$" (String "{" (content +:+ "}"))) - 1)
            (String "$" (String "{" (content +:+ "}"))) = content) as ->.
  { unfold Str.slice. simpl String.length. rewrite length_app. simpl.
    replace (String.length content + 1 - 1)%nat with (String.length content) by lia.
    apply take_app. }
  unfold Str.Contains. by destruct (Str.Cut ":-" content) as [[]|].
Qed.

Lemma reference_bare name :
  Str.HasPrefix name "{" = false → reference (String "$" name) = (name, "").
Proof.
  intros Hn. unfold reference.
  change (Str.HasPrefix (String "$" name) "${") with (Str.HasPrefix name "{").
  by rewrite Hn.
Qed.

(** How a match is resolved: the value of the variable when it is not
    empty, else the default when it is not empty, else the match itself. *)
Lemma replacement_resolution env m name dflt :
  reference m = (name, dflt) →
  replacement env m =
    if decide (Getenv env name ≠ "") then Getenv env name
    else if decide (dflt ≠ "") then dflt else m.
Proof. unfold replacement. by intros ->. Qed.

End ExpandFacts.

Example expand_default_unset :
  Expand.expandEnvVar ∅ "${MISSING:-fallback}" = "fallback".
Proof. reflexivity. Qed.

Example expand_default_set :
  Expand.expandEnvVar {[ "MISSING" := "x" ]} "${MISSING:-fallback}" = "x".
Proof. vm_compute. reflexivity. Qed.

Example expand_bare_unset : Expand.expandEnvVar ∅ "$MISSING" = "$MISSING".
Proof. reflexivity. Qed.

Example expand_default_verbatim :
  Expand.expandEnvVar {[ "HOME" := "/root" ]} "${MISSING:-$HOME}" = "$HOME".
Proof. vm_compute. reflexivity. Qed.

Theorem expand_empty_default_kept : Expand.expandEnvVar ∅ "${X:-}" = "${X:-}".
Proof. reflexivity. Qed.

(** ** The overlay, field by field *)

Section OverlayFacts.
Context `{Unicode} `{FloatOps}.
Implicit Types (fs : list (StructField * value)) (f : StructField) (x : value).

Lemma loadFields_cons env rec f x rest prefix :
  loadFields env rec ((f, x) :: rest) prefix =
    match fieldOutcome env rec prefix f x with
    | (x', Some e) => ((f, x') :: rest, Some e)
    | (x', None) =>
        let '(rest', e) := loadFields env rec rest prefix in ((f, x') :: rest', e)
    end.
Proof.
  unfold fieldOutcome, visited. simpl.
  destruct (IsExported f); simpl; [|done].
  destruct (decide (envKey f = "-")) as [E|E].
  - rewrite bool_decide_eq_true_2 by done. done.
  - rewrite bool_decide_eq_false_2 by done. simpl.
    destruct x; simpl; repeat case_match; simplify_eq; done.
Qed.

Lemma loadFields_lookup env rec fs prefix i f x :
  fs !! i = Some (f, x) →
  ∃ x', (loadFields env rec fs prefix).1 !! i = Some (f, x') ∧
        (x' = x ∨ x' = (fieldOutcome env rec prefix f x).1).
Proof.
  revert i. induction fs as [|[f0 x0] rest IH]; intros i Hi; [done|].
  rewrite loadFields_cons.
  destruct (fieldOutcome env rec prefix f0 x0) as [x0' [e|]] eqn:E0.
  - destruct i as [|i]; simpl in *; simplify_eq.
    + exists x0'. rewrite E0. auto.
    + exists x. auto.
  - destruct i as [|i]; simpl in Hi; simplify_eq.
    + destruct (loadFields env rec rest prefix) as [rest' e'].
      exists x0'. rewrite E0. auto.
    + destruct (IH _ Hi) as (x' & ? & ?).
      destruct (loadFields env rec rest prefix) as [rest' e']. eauto.
Qed.

Lemma loadFields_lookup_ok env rec fs prefix fs' i f x :
  loadFields env rec fs prefix = (fs', None) → fs !! i = Some (f, x) →
  ∃ x', fs' !! i = Some (f, x') ∧ fieldOutcome env rec prefix f x = (x', None).
Proof.
  revert i fs'. induction fs as [|[f0 x0] rest IH]; intros i fs' Hl Hi; [done|].
  rewrite loadFields_cons in Hl.
  destruct (fieldOutcome env rec prefix f0 x0) as [x0' [e|]] eqn:E0; [done|].
  destruct (loadFields env rec rest prefix) as [rest' e'] eqn:Er.
  simplify_eq. destruct i as [|i]; simpl in *; simplify_eq; eauto.
Qed.



Lemma loadStruct_fields env fs prefix :
  loadStructFromEnv env (VStruct fs) prefix =
    (VStruct (loadFields env (loadStructFromEnv env) fs prefix).1,
     (loadFields env (loadStructFromEnv env) fs prefix).2).
Proof. simpl. by destruct (loadFields _ _ _ _). Qed.

(** The overlay, once it has succeeded, at a leaf it visits. *)
Lemma overlay_leaf env p : ∀ prefix fs fs' key f old,
  loadFields env (loadStructFromEnv env) fs prefix = (fs', None) →
  leafKey prefix fs p = Some key → fieldAt fs p = Some (f, old) →
  ∃ new, fieldAt fs' p = Some (f, new) ∧
    (Getenv env key = "" → new = old) ∧
    (Getenv env key ≠ "" → setFieldValue old (Getenv env key) = inl new).
Proof.
  induction p as [|i q IH]; intros prefix fs fs' key f old Hl Hk Hf; [done|].
  simpl in Hk, Hf. destruct (fs !! i) as [[f0 x0]|] eqn:Hi; [|done].
  destruct (visited f0) eqn:Hv; [|done].
  destruct (loadFields_lookup_ok _ _ _ _ _ _ _ _ Hl Hi) as (x' & Hi' & Ho).
  unfold fieldOutcome in Ho. rewrite Hv in Ho. simpl. rewrite Hi'.
  destruct (isStruct x0) eqn:Hs.
  - destruct x0 as [| | | | |sub| | | | | |]; try done.
    rewrite loadStruct_fields in Ho. simplify_eq.
    destruct q as [|j q]; [by destruct sub|].
    eapply IH; [|done..].
    rewrite (surjective_pairing (loadFields _ _ sub _)). by f_equal.
  - assert (q = [] ∧ key = prefix +:+ envKey f0) as [-> ->]
      by (destruct x0, q; naive_solver).
    assert (f = f0 ∧ old = x0) as [-> ->] by (destruct x0; naive_solver).
    exists x'. split; [done|]. simpl in Ho.
    destruct (decide _) as [E|E]; simplify_eq; [naive_solver|].
    destruct (setFieldValue _ _) eqn:Es; simplify_eq. naive_solver.
Qed.

(** A field the overlay skips keeps its value, whatever the outcome. *)
Lemma overlay_skipped env p : ∀ prefix fs f x,
  fieldAt fs p = Some (f, x) → visited f = false →
  fieldAt (loadFields env (loadStructFromEnv env) fs prefix).1 p = Some (f, x).
Proof.
  induction p as [|i q IH]; intros prefix fs f x Hf Hv; [done|].
  simpl in Hf. destruct (fs !! i) as [[f0 x0]|] eqn:Hi; [|done].
  destruct (loadFields_lookup env (loadStructFromEnv env) _ prefix _ _ _ Hi)
    as (x' & Hi' & Hx).
  simpl. rewrite Hi'. destruct q as [|j q].
  - simplify_eq. unfold fieldOutcome in Hx. rewrite Hv in Hx. by destruct Hx; subst x'.
  - destruct x0 as [| | | | |sub| | | | | |]; try done.
    destruct Hx as [?|?]; subst x'; [done|]. unfold fieldOutcome.
    destruct (visited f0); [|done]. simpl isStruct. cbv iota.
    rewrite loadStruct_fields. simpl. by apply IH.
Qed.



End OverlayFacts.

(** ** Keys and the interpolation walk *)

Section InterpFacts.
Context `{Unicode} `{FloatOps}.
Implicit Types (fs : list (StructField * value)) (f : StructField) (x v : value).


Lemma mapM_lookup {A B} (g : A → option B) (l : list A) (k : list B) i a :
  mapM g l = Some k → l !! i = Some a → ∃ b, k !! i = Some b ∧ g a = Some b.
Proof.
  rewrite mapM_Some. intros HF Hi.
  destruct (Forall2_lookup_l _ _ _ _ _ HF Hi) as (b & ? & ?). eauto.
Qed.

(** Interpolation at a scalar field the overlay visits. *)
Lemma substitute_leaf env p : ∀ prefix fs fs' key f x,
  substituteValue env true false (VStruct fs) = Some (VStruct fs') →
  leafKey prefix fs p = Some key → fieldAt fs p = Some (f, x) → isScalar x = true →
  fieldAt fs' p = Some (f, expandLeaf env x).
Proof.
  induction p as [|i q IH]; intros prefix fs fs' key f x Hs Hk Hf Hx; [done|].
  simpl in Hk, Hf. destruct (fs !! i) as [[f0 x0]|] eqn:Hi; [|done].
  destruct (visited f0) eqn:Hv; [|done].
  simpl in Hs. apply fmap_Some in Hs as (k & Hm & [= ->]).
  destruct (mapM_lookup _ _ _ _ _ Hm Hi) as ([f1 x1] & Hi' & Hg).
  apply fmap_Some in Hg as (x0' & Hg & [= -> ->]).
  assert (IsExported f0 = true) as Hex
    by (unfold visited in Hv; by apply andb_true_iff in Hv as [? _]).
  unfold fieldRO in Hg. rewrite Hex in Hg. simpl in Hg.
  simpl. rewrite Hi'. destruct (isStruct x0) eqn:Hst.
  - destruct x0 as [| | | | |sub| | | | | |]; try done.
    destruct q as [|j q]; [by destruct sub|].
    pose proof Hg as Hg'. simpl in Hg'.
    apply fmap_Some in Hg' as (k' & _ & ->). by eapply IH.
  - assert (q = []) as -> by (destruct x0, q; naive_solver).
    assert (f = f0 ∧ x = x0) as [-> ->] by (destruct x0; naive_solver).
    destruct x0; simplify_eq/=; done.
Qed.


Lemma substitute_map env addr ro ok es :
  substituteValue env addr ro (VMap ok es) =
    VMap ok <$> mapM (λ '(key, val), pair key <$> entryOutcome env ro ok val) es.
Proof.
  simpl. f_equal. induction es as [|[key x] es IH]; [done|].
  simpl. rewrite IH. f_equal.
  by destruct x as [| | | | | | | | | |[[]|]|].
Qed.

Lemma mapM_fmap_eq {A B C} (g : A → option B) (h1 : B → C) (h2 : A → C) l k :
  mapM g l = Some k →
  Forall (λ a, ∀ b, g a = Some b → h1 b = h2 a) l →
  h1 <$> k = h2 <$> l.
Proof.
  rewrite mapM_Some. intros HF. induction HF as [|a b l k Hab HF IH]; [done|].
  intros [Ha Hl]%Forall_cons. simpl. f_equal; auto.
Qed.

Lemma mapM_is_Some_forallb {A B} (g : A → option B) (c : A → bool) l :
  Forall (λ a, is_Some (g a) ↔ c a = true) l →
  is_Some (mapM g l) ↔ forallb c l = true.
Proof.
  rewrite mapM_is_Some. induction 1 as [|a l Ha Hl IH]; [done|].
  rewrite Forall_cons. simpl. rewrite andb_true_iff. simpl in *. tauto.
Qed.

(** The walk changes strings only. *)
Lemma substitute_skeleton env v : ∀ addr ro v',
  substituteValue env addr ro v = Some v' → skeleton v' = skeleton v.
Proof.
  induction v as [| | | | |fs IH|ok es IH|xs IH|xs IH|x IH| |x IH| |] using value_ind;
    intros addr ro v' Hs; try (simpl in Hs; by simplify_eq).
  - simpl in Hs. by destruct (addr && negb ro); simplify_eq.
  - simpl in Hs. apply fmap_Some in Hs as (k & Hm & ->). simpl. f_equal.
    eapply mapM_fmap_eq; [done|]. eapply Forall_impl; [done|].
    intros [f x] IHx [f' x'] (y & Hy & [= -> ->])%fmap_Some. simpl in *.
    unfold prod_map. simpl. f_equal. eauto.
  - rewrite substitute_map in Hs. apply fmap_Some in Hs as (k & Hm & ->). simpl. f_equal.
    eapply mapM_fmap_eq; [done|]. eapply Forall_impl; [done|].
    intros [key x] IHx [key' x'] (y & Hy & [= -> ->])%fmap_Some. simpl in *.
    unfold prod_map. simpl. f_equal.
    destruct x as [| | | | | | | | | |[[]|]|];
      first [ exact (IHx false ro y Hy) | by destruct ro, ok; simplify_eq/= ].
  - simpl in Hs. apply fmap_Some in Hs as (k & Hm & ->). simpl. f_equal.
    eapply mapM_fmap_eq; [done|]. eapply Forall_impl; [done|]. naive_solver.
  - simpl in Hs. apply fmap_Some in Hs as (k & Hm & ->). simpl. f_equal.
    eapply mapM_fmap_eq; [done|]. eapply Forall_impl; [done|]. naive_solver.
  - simpl in Hs. apply fmap_Some in Hs as (k & Hm & ->). simpl. do 2 f_equal. eauto.
  - simpl in Hs. apply fmap_Some in Hs as (k & Hm & ->). simpl. do 2 f_equal. eauto.
Qed.

(** The walk runs to its end exactly when [completes] says so. *)
Lemma substitute_completes env v : ∀ addr ro,
  is_Some (substituteValue env addr ro v) ↔ completes ro v = true.
Proof.
  induction v as [| | | | |fs IH|ok es IH|xs IH|xs IH|x IH| |x IH| |] using value_ind;
    intros addr ro; try (simpl; split; by eauto).
  - simpl. rewrite fmap_is_Some. apply mapM_is_Some_forallb.
    eapply Forall_impl; [done|]. intros [f x] IHx. rewrite fmap_is_Some. apply IHx.
  - rewrite substitute_map. simpl. rewrite fmap_is_Some. apply mapM_is_Some_forallb.
    eapply Forall_impl; [done|]. intros [key x] IHx. rewrite fmap_is_Some. simpl in IHx.
    destruct x as [| | | | | | | | | |[[]|]|];
      first [ exact (IHx false ro)
            | rewrite <- (fmap_is_Some (VIface ∘ Some)); exact (IHx false ro)
            | destruct ro, ok; simpl; split; (done || by intros []) ].
  - simpl. rewrite fmap_is_Some. apply mapM_is_Some_forallb.
    eapply Forall_impl; [done|]. naive_solver.
  - simpl. rewrite fmap_is_Some. apply mapM_is_Some_forallb.
    eapply Forall_impl; [done|]. naive_solver.
  - simpl. rewrite fmap_is_Some. apply IH.
  - simpl. rewrite fmap_is_Some. apply IH.
Qed.

(** ** The walk and what a panic leaves *)

Lemma walkList_mapM {A} (g : A → option A) (step : A → A * bool) (l : list A) :
  Forall (λ a, match g a with
               | Some a' => step a = (a', false)
               | None => (step a).2 = true
               end) l →
  match mapM g l with
  | Some l' => walkList step l = (l', false)
  | None => (walkList step l).2 = true
  end.
Proof.
  induction 1 as [|a l Ha Hl IH]; [done|]. simpl.
  destruct (g a) as [a'|]; simpl.
  - rewrite Ha. destruct (mapM g l) as [l'|]; simpl.
    + by rewrite IH.
    + by destruct (walkList step l).
  - destruct (step a) as [a' []]; simpl in *; [done|congruence].
Qed.

Lemma walk_map env addr ro ok es :
  walk env addr ro (VMap ok es) =
    let '(es', p) :=
      walkList (λ '(key, val), let '(val', p) := entryWalk env ro ok val in
                               ((key, val'), p)) es in
    (VMap ok es', p).
Proof.
  simpl.
  match goal with
  | |- (let '(_, _) := walkList ?f es in _) = (let '(_, _) := walkList ?g es in _) =>
      assert (walkList f es = walkList g es) as ->; [|done]
  end.
  induction es as [|[key x] es IH]; [done|]. simpl. rewrite IH.
  by destruct x as [| | | | | | | | | |[[]|]|].
Qed.

Lemma entry_spec env ro ok x :
  (∀ addr ro, match substituteValue env addr ro x with
              | Some v' => walk env addr ro x = (v', false)
              | None => (walk env addr ro x).2 = true
              end) →
  match entryOutcome env ro ok x with
  | Some x' => entryWalk env ro ok x = (x', false)
  | None => (entryWalk env ro ok x).2 = true
  end.
Proof.
  intros IHx.
  destruct x as [| | | | | | | | | |[[]|]|];
    first [ exact (IHx false ro) | by (simpl; destruct (ro || negb ok)) ].
Qed.

(** The two walks agree: [substituteValue] returns what [walk] leaves
    when it does not panic, and nothing when it does. *)
Lemma walk_spec env v : ∀ addr ro,
  match substituteValue env addr ro v with
  | Some v' => walk env addr ro v = (v', false)
  | None => (walk env addr ro v).2 = true
  end.
Proof.
  induction v as [| | | | |fs IH|ok es IH|xs IH|xs IH|x IH| |x IH| |] using value_ind;
    intros addr ro; try done.
  - simpl.
    pose proof (walkList_mapM
      (λ '(f, x), pair f <$> substituteValue env addr (fieldRO ro f x) x)
      (λ '(f, x), let '(x', p) := walk env addr (fieldRO ro f x) x in ((f, x'), p)) fs) as Hw.
    assert (Forall (λ a, match (let '(f, x) := a in
                                pair f <$> substituteValue env addr (fieldRO ro f x) x) with
                         | Some a' =>
                             (let '(f, x) := a in
                              let '(x', p) := walk env addr (fieldRO ro f x) x in
                              ((f, x'), p)) = (a', false)
                         | None =>
                             (let '(f, x) := a in
                              let '(x', p) := walk env addr (fieldRO ro f x) x in
                              ((f, x'), p)).2 = true
                         end) fs) as HF.
    { eapply Forall_impl; [done|]. intros [f x] IHx. simpl in *.
      specialize (IHx addr (fieldRO ro f x)).
      destruct (substituteValue env addr _ x); simpl; [by rewrite IHx|].
      by destruct (walk env addr _ x). }
    specialize (Hw HF). destruct (mapM _ fs) as [fs'|]; simpl.
    + by rewrite Hw.
    + by destruct (walkList _ fs).
  - rewrite substitute_map, walk_map.
    pose proof (walkList_mapM
      (λ '(key, val), pair key <$> entryOutcome env ro ok val)
      (λ '(key, val), let '(val', p) := entryWalk env ro ok val in ((key, val'), p))
      es) as Hw.
    assert (Forall (λ a, match (let '(key, val) := a in
                                pair key <$> entryOutcome env ro ok val) with
                         | Some a' =>
                             (let '(key, val) := a in
                              let '(val', p) := entryWalk env ro ok val in
                              ((key, val'), p)) = (a', false)
                         | None =>
                             (let '(key, val) := a in
                              let '(val', p) := entryWalk env ro ok val in
                              ((key, val'), p)).2 = true
                         end) es) as HF.
    { eapply Forall_impl; [done|]. intros [key x] IHx. simpl in IHx.
      pose proof (entry_spec env ro ok x IHx) as He.
      destruct (entryOutcome env ro ok x); simpl; [by rewrite He|].
      by destruct (entryWalk env ro ok x). }
    specialize (Hw HF). destruct (mapM _ es) as [es'|]; simpl.
    + by rewrite Hw.
    + by destruct (walkList _ es).
  - simpl. pose proof (walkList_mapM (substituteValue env true ro) (walk env true ro) xs) as Hw.
    assert (Forall (λ a, match substituteValue env true ro a with
                         | Some a' => walk env true ro a = (a', false)
                         | None => (walk env true ro a).2 = true
                         end) xs) as HF.
    { eapply Forall_impl; [done|]. intros x IHx. apply IHx. }
    specialize (Hw HF). destruct (mapM _ xs) as [xs'|]; simpl.
    + by rewrite Hw.
    + by destruct (walkList _ xs).
  - simpl. pose proof (walkList_mapM (substituteValue env addr ro) (walk env addr ro) xs) as Hw.
    assert (Forall (λ a, match substituteValue env addr ro a with
                         | Some a' => walk env addr ro a = (a', false)
                         | None => (walk env addr ro a).2 = true
                         end) xs) as HF.
    { eapply Forall_impl; [done|]. intros x IHx. apply IHx. }
    specialize (Hw HF). destruct (mapM _ xs) as [xs'|]; simpl.
    + by rewrite Hw.
    + by destruct (walkList _ xs).
  - simpl. specialize (IH true ro). destruct (substituteValue env true ro x); simpl.
    + by rewrite IH.
    + by destruct (walk env true ro x).
  - simpl. specialize (IH false ro). destruct (substituteValue env false ro x); simpl.
    + by rewrite IH.
    + by destruct (walk env false ro x).
Qed.

End InterpFacts.

(** ** [Load], phase by phase *)

Section LoadFacts.
Context `{Unicode} `{FloatOps}.
Implicit Types (fs : list (StructField * value)) (f : StructField) (x v : value).
Implicit Types (w : World) (l : Loader) (t : Target).

Lemma loadFromEnv_struct env prefix fs :
  loadFromEnv env prefix (Some (VPtr (Some (VStruct fs)))) =
    (Some (VPtr (Some (VStruct (loadFields env (loadStructFromEnv env) fs prefix).1))),
     (loadFields env (loadStructFromEnv env) fs prefix).2).
Proof. unfold loadFromEnv. by rewrite loadStruct_fields. Qed.

(** The overlay succeeds on pointers to structs only, and leaves one. *)
Lemma loadFromEnv_ok env prefix c c' :
  loadFromEnv env prefix c = (c', None) →
  ∃ fs fs', c = Some (VPtr (Some (VStruct fs))) ∧
            c' = Some (VPtr (Some (VStruct fs'))) ∧
            loadFields env (loadStructFromEnv env) fs prefix = (fs', None).
Proof.
  destruct c as [[| | | | | | | | |[[| | | | |fs| | | | | |]|]| |]|]; try done.
  rewrite loadFromEnv_struct. intros [= <- He]. exists fs. eexists.
  split_and!; try done. rewrite <- He. apply surjective_pairing.
Qed.

(** [Load], phase by phase. *)
Lemma Load_file_failed w l t c1 e k1 :
  filePhase w l (config t) = (c1, Some e, k1) →
  Load w l t = mkOutcome (Returned (Some (FromFile e))) c1 k1.
Proof. unfold Load. by intros ->. Qed.

Lemma Load_env_failed w l t c1 k1 c2 e :
  filePhase w l (config t) = (c1, None, k1) →
  loadFromEnv (environ w) (envPrefix l) c1 = (c2, Some e) →
  Load w l t = mkOutcome (Returned (Some (FromEnvironment e))) c2 (k1 ++ [CallLoadFromEnv]).
Proof. unfold Load. by intros -> ->. Qed.

Lemma Load_later w l t c1 k1 c2 :
  filePhase w l (config t) = (c1, None, k1) →
  loadFromEnv (environ w) (envPrefix l) c1 = (c2, None) →
  Load w l t =
    match substituteEnvVars (environ w) c2 with
    | SubstDone c3 =>
        mkOutcome (Returned None) (defaultsHook t c3).1
          ((k1 ++ [CallLoadFromEnv]) ++ [CallSubstituteEnvVars] ++ (defaultsHook t c3).2)
    | SubstFailed e =>
        mkOutcome (Returned (Some (FromSubstitution e))) c2
          ((k1 ++ [CallLoadFromEnv]) ++ [CallSubstituteEnvVars])
    | SubstPanic =>
        mkOutcome Panicked (interrupted (environ w) c2)
          ((k1 ++ [CallLoadFromEnv]) ++ [CallSubstituteEnvVars])
    end.
Proof.
  unfold Load. intros -> ->. destruct (substituteEnvVars _ _); try done.
  destruct (defaultsHook t _). by rewrite <- app_assoc.
Qed.

(** Once the overlay has succeeded, interpolation returns no error. *)
Lemma substituteEnvVars_no_error env prefix c1 c2 e :
  loadFromEnv env prefix c1 = (c2, None) → substituteEnvVars env c2 ≠ SubstFailed e.
Proof.
  intros (fs & fs' & _ & -> & _)%loadFromEnv_ok. simpl.
  by destruct (mapM _ _).
Qed.

(** What a successful [Load] went through. *)
Lemma Load_succeeded w l t :
  result (Load w l t) = Returned None →
  ∃ k1 fs1 fs2 fs3,
    filePhase w l (config t) = (Some (VPtr (Some (VStruct fs1))), None, k1) ∧
    loadFields (environ w) (loadStructFromEnv (environ w)) fs1 (envPrefix l) = (fs2, None) ∧
    substituteValue (environ w) true false (VStruct fs2) = Some (VStruct fs3) ∧
    final (Load w l t) = (defaultsHook t (Some (VPtr (Some (VStruct fs3))))).1 ∧
    calls (Load w l t) =
      k1 ++ [CallLoadFromEnv; CallSubstituteEnvVars] ++
        (defaultsHook t (Some (VPtr (Some (VStruct fs3))))).2.
Proof.
  destruct (filePhase w l (config t)) as [[c1 [e1|]] k1] eqn:Hf.
  { by rewrite (Load_file_failed _ _ _ _ _ _ Hf). }
  destruct (loadFromEnv (environ w) (envPrefix l) c1) as [c2 [e2|]] eqn:He.
  { by rewrite (Load_env_failed _ _ _ _ _ _ _ Hf He). }
  rewrite (Load_later _ _ _ _ _ _ Hf He).
  destruct (loadFromEnv_ok _ _ _ _ He) as (fs1 & fs2 & -> & -> & Hl).
  unfold substituteEnvVars.
  destruct (substituteValue (environ w) true false (VStruct fs2)) as [x3|] eqn:Hs; [|done].
  pose proof Hs as Hs'. simpl in Hs'. apply fmap_Some in Hs' as (fs3 & _ & ->).
  intros _. exists k1, fs1, fs2, fs3. split_and!; try done.
  simpl. by rewrite <- app_assoc.
Qed.

(** The hook calls [SetDefaults] once when the target has it, and not at
    all otherwise. *)
Lemma defaultsHook_calls t v :
  (defaultsHook t (Some v)).2 =
    match SetDefaults t with Some _ => [CallSetDefaults] | None => [] end.
Proof. unfold defaultsHook. by destruct (SetDefaults t). Qed.

(** The runs of [Load]: it stops at the first phase that fails, of the
    first two; after them interpolation returns no error, and either
    panics or is followed by the hook. *)
Lemma Load_outcomes w l t :
  (∃ c1 e k1,
     filePhase w l (config t) = (c1, Some e, k1) ∧
     Load w l t = mkOutcome (Returned (Some (FromFile e))) c1 k1) ∨
  (∃ c1 k1 c2 e,
     filePhase w l (config t) = (c1, None, k1) ∧
     loadFromEnv (environ w) (envPrefix l) c1 = (c2, Some e) ∧
     Load w l t =
       mkOutcome (Returned (Some (FromEnvironment e))) c2 (k1 ++ [CallLoadFromEnv])) ∨
  (∃ c1 k1 c2,
     filePhase w l (config t) = (c1, None, k1) ∧
     loadFromEnv (environ w) (envPrefix l) c1 = (c2, None) ∧
     substituteEnvVars (environ w) c2 = SubstPanic ∧
     Load w l t =
       mkOutcome Panicked (interrupted (environ w) c2)
         ((k1 ++ [CallLoadFromEnv]) ++ [CallSubstituteEnvVars])) ∨
  (∃ c1 k1 c2 c3,
     filePhase w l (config t) = (c1, None, k1) ∧
     loadFromEnv (environ w) (envPrefix l) c1 = (c2, None) ∧
     substituteEnvVars (environ w) c2 = SubstDone c3 ∧
     Load w l t =
       mkOutcome (Returned None) (defaultsHook t c3).1
         ((k1 ++ [CallLoadFromEnv]) ++ [CallSubstituteEnvVars] ++ (defaultsHook t c3).2)).
Proof.
  destruct (filePhase w l (config t)) as [[c1 [e1|]] k1] eqn:Hf.
  { left. exists c1, e1, k1. split; [done|]. by apply Load_file_failed. }
  destruct (loadFromEnv (environ w) (envPrefix l) c1) as [c2 [e2|]] eqn:He.
  { right; left. exists c1, k1, c2, e2. split_and!; try done. by eapply Load_env_failed. }
  right; right. pose proof (Load_later _ _ _ _ _ _ Hf He) as HL.
  destruct (substituteEnvVars (environ w) c2) as [c3|e|] eqn:Hs.
  - right. by exists c1, k1, c2, c3.
  - by destruct (substituteEnvVars_no_error _ _ _ _ e He).
  - left. by exists c1, k1, c2.
Qed.

End LoadFacts.

(** ** Leaves, keys and failures *)

Section MoreFacts.
Context `{Unicode} `{FloatOps}.
Implicit Types (fs : list (StructField * value)) (f : StructField) (x v : value).
Implicit Types (w : World) (l : Loader) (t : Target).

(** [setFieldValue] keeps the kind of the field. *)
Lemma setFieldValue_kind x raw x' :
  setFieldValue x raw = inl x' → kindOf x' = kindOf x.
Proof. destruct x; simpl; repeat case_match; naive_solver. Qed.

(** The outcome of [setFieldValue] depends on the field through its kind
    only, not through the value it holds. *)
Lemma setFieldValue_kind_only x y raw :
  kindOf y = kindOf x → setFieldValue y raw = setFieldValue x raw.
Proof. destruct x, y; simpl; intros; by simplify_eq. Qed.

Lemma isStruct_kind x x' : kindOf x' = kindOf x → isStruct x' = isStruct x.
Proof. by destruct x, x'. Qed.

Lemma isScalar_kind x x' : kindOf x' = kindOf x → isScalar x' = isScalar x.
Proof. by destruct x, x'. Qed.


(** A kind that is neither a struct nor a scalar is not supported. *)
Lemma setFieldValue_unsupported x raw :
  isStruct x = false → isScalar x = false →
  setFieldValue x raw = inr (UnsupportedFieldType (kindOf x)).
Proof. by destruct x. Qed.

(** The overlay keeps the keys of the leaves. *)
Lemma overlay_leafKey env p : ∀ prefix prefix' fs fs' key,
  loadFields env (loadStructFromEnv env) fs prefix = (fs', None) →
  leafKey prefix' fs p = Some key → leafKey prefix' fs' p = Some key.
Proof.
  induction p as [|i q IH]; intros prefix prefix' fs fs' key Hl Hk; [done|].
  simpl in Hk. destruct (fs !! i) as [[f0 x0]|] eqn:Hi; [|done].
  destruct (visited f0) eqn:Hv; [|done].
  destruct (loadFields_lookup_ok _ _ _ _ _ _ _ _ Hl Hi) as (x' & Hi' & Ho).
  unfold fieldOutcome in Ho. rewrite Hv in Ho. simpl. rewrite Hi', Hv.
  destruct (isStruct x0) eqn:Hs.
  - destruct x0 as [| | | | |sub| | | | | |]; try done.
    rewrite loadStruct_fields in Ho. simplify_eq.
    eapply IH; [|done]. rewrite (surjective_pairing (loadFields _ _ sub _)). by f_equal.
  - assert (isStruct x' = false) as Hs'.
    { simpl in Ho. destruct (decide _); simplify_eq; [done|].
      destruct (setFieldValue x0 _) eqn:Hset; simplify_eq.
      apply setFieldValue_kind in Hset. by rewrite (isStruct_kind _ _ Hset). }
    destruct x0; try done; destruct x'; done.
Qed.

Lemma fieldsAlong_nonempty fs p : fieldsAlong fs p ≠ Some [].
Proof.
  destruct p as [|i q]; [done|]. simpl.
  destruct (fs !! i) as [[g y]|]; [|done].
  destruct q; [done|]. destruct y; try done. by destruct (fieldsAlong _ _).
Qed.

(** The key of a leaf, written out. *)
Lemma leafKey_of_fields p : ∀ prefix fs names f old,
  fieldsAlong fs p = Some names → Forall (λ g, visited g = true) names →
  fieldAt fs p = Some (f, old) → isStruct old = false →
  leafKey prefix fs p = Some (prefix +:+ String.concat "_" (envKey <$> names)).
Proof.
  induction p as [|i q IH]; intros prefix fs names f old Hn Hv Hf Hs; [done|].
  simpl in *. destruct (fs !! i) as [[f0 x0]|] eqn:Hi; [|done].
  destruct q as [|j q].
  - simplify_eq. rewrite (Forall_inv Hv). by destruct old.
  - destruct x0 as [| | | | |sub| | | | | |]; try done.
    apply fmap_Some in Hn as (names' & Hn & ->).
    rewrite (Forall_inv Hv). apply Forall_inv_tail in Hv.
    rewrite (IH _ _ _ _ _ Hn Hv Hf Hs). f_equal.
    destruct names' as [|g names']; [by apply fieldsAlong_nonempty in Hn|].
    simpl. by rewrite !app_assoc_s.
Qed.


(** No key is looked up for a skipped field, nor below it. *)
Lemma leafKey_skipped p : ∀ prefix fs f x q,
  fieldAt fs p = Some (f, x) → visited f = false →
  leafKey prefix fs (p ++ q) = None.
Proof.
  induction p as [|i p IH]; intros prefix fs f x q Hp Hv; [done|].
  simpl in *. destruct (fs !! i) as [[f0 x0]|] eqn:Hi; [|done].
  destruct p as [|j p].
  - simplify_eq. by rewrite Hv.
  - destruct x0 as [| | | | |sub| | | | | |]; try done.
    destruct (visited f0); [|done]. by eapply IH.
Qed.


End MoreFacts.

(** * The claims of the specification *)

Section Claims.
Context `{Unicode} `{FloatOps}.
Implicit Types (fs : list (StructField * value)) (f : StructField) (x v : value).
Implicit Types (w : World) (l : Loader) (t : Target).

(** C1 (as amended).  After a successful [Load], and before the defaults
    hook is applied, every scalar leaf field the overlay visits holds the
    environment value of its key coerced to the field's kind when that
    value is not empty (the same whatever value of that kind the file
    phase left in the field), and what the file phase left in it
    otherwise; in both cases with the variable references expanded when
    it is a string. *)
Theorem overlay_value_then_interpolated w l t k1 fs1 p key f old :
  filePhase w l (config t) = (Some (VPtr (Some (VStruct fs1))), None, k1) →
  result (Load w l t) = Returned None →
  leafKey (envPrefix l) fs1 p = Some key → fieldAt fs1 p = Some (f, old) →
  isScalar old = true →
  ∃ fs3 new,
    final (Load w l t) = (defaultsHook t (Some (VPtr (Some (VStruct fs3))))).1 ∧
    fieldAt fs3 p = Some (f, expandLeaf (environ w) new) ∧
    (Getenv (environ w) key ≠ "" →
       ∀ y, kindOf y = kindOf old →
            setFieldValue y (Getenv (environ w) key) = inl new) ∧
    (Getenv (environ w) key = "" → new = old).
Proof.
  intros Hf Hr Hk Hp Hsc.
  destruct (Load_succeeded _ _ _ Hr) as (k1' & fs1' & fs2 & fs3 & Hf' & Hl & Hs & Hfin & _).
  rewrite Hf in Hf'. simplify_eq.
  destruct (overlay_leaf _ _ _ _ _ _ _ _ Hl Hk Hp) as (new & Hnew & Hunset & Hset).
  exists fs3, new. split_and!; try done.
  - eapply substitute_leaf; [done| |done|].
    + by eapply overlay_leafKey.
    + destruct (decide (Getenv (environ w) key = "")) as [E|E].
      * by rewrite (Hunset E).
      * apply Hset, setFieldValue_kind in E. by rewrite (isScalar_kind _ _ E).
  - intros Hne y Hy. rewrite (setFieldValue_kind_only old y _ Hy). by apply Hset.
Qed.

(** C2.  The overlay reads the field at a path from the key made of the
    prefix followed by the override keys of the fields on the path (the
    [env] tag, or else the upper-cased identifier), joined by
    underscores: the prefix is the leading segment and nothing else of
    the key depends on it. *)
Theorem env_key_derivation env prefix fs fs' p names f old :
  fieldsAlong fs p = Some names →
  Forall (λ g, IsExported g = true ∧ envKey g ≠ "-") names →
  fieldAt fs p = Some (f, old) → isStruct old = false →
  loadStructFromEnv env (VStruct fs) prefix = (VStruct fs', None) →
  let overrideKey g :=
    if decide (TagEnv g = "") then Str.ToUpper (Name g) else TagEnv g in
  let key := prefix +:+ String.concat "_" (overrideKey <$> names) in
  leafKey prefix fs p = Some key ∧
  ∃ new, fieldAt fs' p = Some (f, new) ∧
    (Getenv env key = "" → new = old) ∧
    (Getenv env key ≠ "" → setFieldValue old (Getenv env key) = inl new).
Proof.
  intros Hn Hv Hp Hs Hl overrideKey key.
  assert (leafKey prefix fs p = Some key) as Hk.
  { eapply leafKey_of_fields; [done| |done..].
    eapply Forall_impl; [done|]. intros g [Hg Hg']. unfold visited.
    by rewrite Hg, bool_decide_eq_false_2. }
  split; [done|]. eapply overlay_leaf; [|done..].
  rewrite loadStruct_fields in Hl. simplify_eq.
  rewrite (surjective_pairing (loadFields _ _ fs _)). by f_equal.
Qed.


(** C6.  With an empty path, or a path at which there is no file, the
    file phase succeeds and leaves the target as it was. *)
Theorem file_phase_noop_when_absent w l c :
  configPath l = "" ∨ ReadFile w (configPath l) = NotExist →
  ∃ k, filePhase w l c = (c, None, k).
Proof.
  intros Hp. unfold filePhase, loadFromFile.
  destruct (decide (configPath l ≠ "")) as [Hne|_]; [|by eexists].
  destruct Hp as [Hp|Hp]; [done|]. rewrite Hp. by eexists.
Qed.

(** C7 (as amended).  For a path at which a file can be read and whose
    extension, in lower case, is none of [.yaml], [.yml] and [.json], the
    file phase fails with the unsupported-format error that names the
    lower-cased extension, and leaves the target as it was. *)
Theorem unsupported_extension_of_readable_file w path c data :
  ReadFile w path = FileData data →
  Str.ToLower (Ext path) ∉ [".yaml"; ".yml"; ".json"] →
  loadFromFile w path c = (c, Some (UnsupportedFormat (Str.ToLower (Ext path)))).
Proof.
  intros Hr Hext. unfold loadFromFile. rewrite Hr.
  rewrite bool_decide_eq_false_2, decide_False; [done|..];
    intros Hin; apply Hext; rewrite !elem_of_cons in *; tauto.
Qed.

(** C8.  A field whose override key is the sentinel, at any depth: the
    overlay looks up no key for it nor for anything inside it, and after
    the overlay it has the value it had before, whatever the environment
    holds and whether or not the overlay fails. *)
Theorem sentinel_field_untouched env prefix fs p f x :
  fieldAt fs p = Some (f, x) → envKey f = "-" →
  (∀ q, leafKey prefix fs (p ++ q) = None) ∧
  ∃ fs', (loadStructFromEnv env (VStruct fs) prefix).1 = VStruct fs' ∧
         fieldAt fs' p = Some (f, x).
Proof.
  intros Hp Hk.
  assert (visited f = false) as Hv.
  { unfold visited. rewrite bool_decide_eq_true_2 by done. apply andb_false_r. }
  split; [intros q; by eapply leafKey_skipped|].
  rewrite loadStruct_fields. eexists. split; [done|]. by apply overlay_skipped.
Qed.


End Claims.

(** * The claims at concrete inputs *)

Section Closed.
#[local] Existing Instance ascii_text.
#[local] Existing Instance no_floats.

Lemma overlay_value_then_interpolated_witness :
  let w := Sample.world {[ "APP_HOST" := "$HOME"; "HOME" := "/root" ]} in
  let l := NewLoader "" "APP_" in
  let t := Sample.target Sample.host in
  ∃ fs3 new,
    final (Load w l t) = (defaultsHook t (Some (VPtr (Some (VStruct fs3))))).1 ∧
    fieldAt fs3 [0] = Some (mkField "Host" "", expandLeaf (environ w) new) ∧
    (Getenv (environ w) "APP_HOST" ≠ "" →
       ∀ y, kindOf y = kindOf (VString "localhost") →
            setFieldValue y (Getenv (environ w) "APP_HOST") = inl new) ∧
    (Getenv (environ w) "APP_HOST" = "" → new = VString "localhost").
Proof.
  intros w l t.
  apply (overlay_value_then_interpolated w l t [] Sample.host [0] "APP_HOST");
    vm_compute; reflexivity.
Defined.

(** C1, as stated, fails: the overlay puts the environment value in the
    field, and interpolation then rewrites it. *)
Lemma overlay_value_not_final :
  ¬ (∀ (w : World) (l : Loader) (t : Target) k1 fs1 p key f old,
       filePhase w l (config t) = (Some (VPtr (Some (VStruct fs1))), None, k1) →
       result (Load w l t) = Returned None →
       leafKey (envPrefix l) fs1 p = Some key → fieldAt fs1 p = Some (f, old) →
       isScalar old = true → Getenv (environ w) key ≠ "" →
       ∃ fsN new,
         final (Load w l t) = Some (VPtr (Some (VStruct fsN))) ∧
         fieldAt fsN p = Some (f, new) ∧
         setFieldValue old (Getenv (environ w) key) = inl new).
Proof.
  intros C.
  destruct (C (Sample.world {[ "APP_HOST" := "$HOME"; "HOME" := "/root" ]})
              (NewLoader "" "APP_") (Sample.target Sample.host)
              [] Sample.host [0] "APP_HOST" (mkField "Host" "") (VString "localhost"))
    as (fsN & new & Hfin & Hat & Hset); try (vm_compute; reflexivity).
  - vm_compute. discriminate.
  - vm_compute in Hfin, Hset. injection Hfin as <-. injection Hset as <-.
    vm_compute in Hat. discriminate.
Qed.

(** The environment wins over the file: the file sets the port to 3000,
    the environment to 4000. *)
Example environment_wins_over_file :
  let decoded := [(mkField "Server" "", VStruct [(mkField "Port" "", VInt Int 3000)])] in
  let w := mkWorld {[ "APP_SERVER_PORT" := "4000" ]}
             (λ _, FileData "server: {port: 3000}")
             (λ _ _, (Some (VPtr (Some (VStruct decoded))), None))
             (λ _ c, (c, None)) in
  let initial := [(mkField "Server" "", VStruct [(mkField "Port" "", VInt Int 0)])] in
  Load w (NewLoader "config.yaml" "APP_") (Sample.target initial) =
    mkOutcome (Returned None)
      (Some (VPtr (Some (VStruct
         [(mkField "Server" "", VStruct [(mkField "Port" "", VInt Int 4000)])]))))
      [CallLoadFromFile; CallLoadFromEnv; CallSubstituteEnvVars].
Proof. vm_compute. reflexivity. Qed.

Lemma env_key_derivation_witness :
  let env : Env := {[ "APP_SERVER_TIMEOUT" := "30" ]} in
  let fs' := [(mkField "Server" "", VStruct [(mkField "Timeout" "", VInt Int64 30)])] in
  leafKey "APP_" Sample.server [0; 0] = Some "APP_SERVER_TIMEOUT" ∧
  ∃ new, fieldAt fs' [0; 0] = Some (mkField "Timeout" "", new) ∧
    (Getenv env "APP_SERVER_TIMEOUT" = "" → new = VInt Int64 0) ∧
    (Getenv env "APP_SERVER_TIMEOUT" ≠ "" →
       setFieldValue (VInt Int64 0) (Getenv env "APP_SERVER_TIMEOUT") = inl new).
Proof.
  intros env fs'.
  apply (env_key_derivation env "APP_" Sample.server fs' [0; 0]
           [mkField "Server" ""; mkField "Timeout" ""]);
    try (vm_compute; reflexivity).
  repeat constructor; vm_compute; congruence.
Defined.

(** C3.  The code on a target with a string in an interface slot that
    is a field: the walk reaches the string (the [Interface] case descends
    into what the slot holds) and leaves it as it is, since what [Elem]
    returns for an interface cannot be set and the [String] case sets
    nothing then; [Load] returns no error, and the reference is still
    there. *)
Theorem load_leaves_string_in_any_slot :
  let fs := [(mkField "Extra" "", VIface (Some (VString "$HOME")))] in
  Expand.expandEnvVar Sample.home "$HOME" = "/root" ∧
  Load (Sample.world Sample.home) (NewLoader "" "") (Sample.target fs) =
    mkOutcome (Returned None) (Some (VPtr (Some (VStruct fs))))
      [CallLoadFromEnv; CallSubstituteEnvVars].
Proof. split; vm_compute; reflexivity. Qed.

(** C4.  The code at [${X:-}] with [X] unset: a default clause is there and
    its default is empty, and the reference is left as it is. *)
Theorem empty_default_left_unexpanded :
  Expand.reference "${X:-}" = ("X", "") ∧
  Expand.expandEnvVar ∅ "${X:-}" = "${X:-}".
Proof. split; reflexivity. Qed.


Lemma file_phase_noop_when_absent_witness :
  ∃ k, filePhase (Sample.world ∅) (NewLoader "missing.toml" "")
         (config (Sample.target Sample.host)) =
       (config (Sample.target Sample.host), None, k).
Proof.
  apply (file_phase_noop_when_absent (Sample.world ∅) (NewLoader "missing.toml" "")).
  right. reflexivity.
Defined.

Lemma unsupported_extension_of_readable_file_witness :
  loadFromFile (Sample.worldWithFile ∅ "port = 1") "conf.TOML" None =
    (None, Some (UnsupportedFormat ".toml")).
Proof.
  apply (unsupported_extension_of_readable_file
           (Sample.worldWithFile ∅ "port = 1") "conf.TOML" None "port = 1").
  - reflexivity.
  - apply (bool_decide_unpack _). vm_compute. exact I.
Defined.

(** C7, as stated, fails: the file is read before its extension is looked
    at, and a file that is not there ends the phase with success. *)
Lemma missing_file_with_unsupported_extension :
  ¬ (∀ (w : World) (path : string) (c : option value),
       path ≠ "" → Str.ToLower (Ext path) ∉ [".yaml"; ".yml"; ".json"] →
       ∃ c', loadFromFile w path c =
               (c', Some (UnsupportedFormat (Str.ToLower (Ext path))))).
Proof.
  intros C. destruct (C (Sample.world ∅) "conf.toml" None) as [c' Hc].
  - discriminate.
  - apply (bool_decide_unpack _). vm_compute. exact I.
  - vm_compute in Hc. discriminate.
Qed.

Lemma sentinel_field_untouched_witness :
  let env : Env := {[ "APP_SECRET" := "leaked"; "APP_-" := "leaked"; "APP_PORT" := "80" ]} in
  (∀ q, leafKey "APP_" Sample.secret ([1] ++ q) = None) ∧
  ∃ fs', (loadStructFromEnv env (VStruct Sample.secret) "APP_").1 = VStruct fs' ∧
         fieldAt fs' [1] = Some (mkField "Secret" "-", VString "s3cr3t").
Proof.
  intros env.
  apply (sentinel_field_untouched env "APP_" Sample.secret [1]); reflexivity.
Defined.

(** C9.  The code on a target with an unexported map that holds a string:
    both first phases succeed, the walk panics in the map (where the
    string case asks [CanSet] first, the map case stores without asking),
    and [SetDefaults], which the target has, is never called. *)
Theorem load_panics_on_unexported_map :
  let t := mkTarget (Some (VPtr (Some (VStruct Sample.hidden)))) (Some (λ v, v)) in
  Load (Sample.world ∅) (NewLoader "" "") t =
    mkOutcome Panicked (Some (VPtr (Some (VStruct Sample.hidden))))
      [CallLoadFromEnv; CallSubstituteEnvVars].
Proof. vm_compute. reflexivity. Qed.


(** A map whose element type is a named string type: the walk panics in
    [SetMapIndex] though every field is exported, a [string] not being
    assignable to the element type.  [struct { Levels map[string]level }] *)
Example load_panics_on_named_element_type :
  let fs := [(mkField "Levels" "", VMap false [("app", VString "debug")])] in
  Load (Sample.world Sample.home) (NewLoader "" "") (Sample.target fs) =
    mkOutcome Panicked (Some (VPtr (Some (VStruct fs))))
      [CallLoadFromEnv; CallSubstituteEnvVars].
Proof. vm_compute. reflexivity. Qed.

(** The fields of an embedded unexported struct are not read-only for
    being below it: the overlay skips the embedded field, the walk
    rewrites the string.  [struct { base }], [base] a struct with the
    field [Host string]. *)
Example load_rewrites_below_embedded_struct :
  let target host :=
    [(mkStructField "base" "" true, VStruct [(mkField "Host" "", VString host)])] in
  Load (Sample.world {[ "HOST" := "db"; "BASE_HOST" := "db"; "HOME" := "/root" ]})
       (NewLoader "" "") (Sample.target (target "$HOME")) =
    mkOutcome (Returned None) (Some (VPtr (Some (VStruct (target "/root")))))
      [CallLoadFromEnv; CallSubstituteEnvVars].
Proof. vm_compute. reflexivity. Qed.

(** A panic leaves the strings rewritten that the walk has set before
    it.  [struct { Name string; labels map[string]string }] *)
Example panic_keeps_earlier_rewrites :
  let target name :=
    [(mkField "Name" "", VString name);
     (mkField "labels" "", VMap true [("region", VString "eu")])] in
  Load (Sample.world Sample.home) (NewLoader "" "") (Sample.target (target "$HOME")) =
    mkOutcome Panicked (Some (VPtr (Some (VStruct (target "/root")))))
      [CallLoadFromEnv; CallSubstituteEnvVars].
Proof. vm_compute. reflexivity. Qed.

End Closed.

(** * Further properties of the code *)

(** ** [expandEnvVar] by the shape of its argument *)

Module ExpandMore.
Import Expand ExpandFacts ExpandShape.

Lemma name_start_not_brace d : is_name_start d = true → Ascii.eqb d "{" = false.
Proof.
  intros Hd. destruct (Ascii.eqb_spec d "{") as [->|]; [|done]. by vm_compute in Hd.
Qed.

Lemma match_here_none_inert c r :
  (negb (Ascii.eqb c "$") ||
   match r with
   | String d _ => negb (Ascii.eqb d "{" || is_name_start d)
   | EmptyString => true
   end) = true →
  match_here (String c r) = None.
Proof.
  intros Hc. unfold match_here, match_braced, match_bare. simpl.
  destruct (Ascii.eqb c "$") eqn:Ec; simpl in *.
  - destruct r as [|d r]; [done|]. simpl.
    apply negb_true_iff, orb_false_iff in Hc as [-> ->]. done.
  - by destruct r.
Qed.

Lemma Cut_first_byte c content rest :
  Str.Contains content (String c "") = false →
  Str.Cut (String c "") (content +:+ String c rest) = Some (content, rest).
Proof.
  unfold Str.Contains. induction content as [|d content IH]; intros Hc.
  - rewrite app_empty_l, Cut_unfold. simpl. by rewrite Ascii.eqb_refl.
  - rewrite app_String, Cut_unfold. rewrite Cut_unfold in Hc. simpl in *.
    destruct (Ascii.eqb d c); simpl in *; [done|].
    destruct (Str.Cut (String c "") content) as [[]|] eqn:E; [done|].
    by rewrite IH.
Qed.

Lemma match_here_braced content rest :
  content ≠ "" → Str.Contains content "}" = false →
  match_here (("${" +:+ content +:+ "}") +:+ rest) = Some ("${" +:+ content +:+ "}").
Proof.
  intros Hne Hc. unfold match_here, match_braced.
  change (("${" +:+ content +:+ "}") +:+ rest)
    with (String "$" (String "{" ((content +:+ "}") +:+ rest))).
  simpl Str.HasPrefix. cbv iota. simpl Str.drop.
  rewrite app_assoc_s. change ("}" +:+ rest) with (String "}" rest).
  rewrite Cut_first_byte by done. by rewrite decide_False.
Qed.

Lemma span_name r rest :
  all_bytes is_name_char r = true → continues_name rest = false →
  Str.span is_name_char (r +:+ rest) = (r, rest).
Proof.
  intros Hr Hrest. induction r as [|c r IH].
  - rewrite app_empty_l. destruct rest as [|c rest]; [done|].
    simpl in *. by rewrite Hrest.
  - simpl in Hr. apply andb_true_iff in Hr as [Hc Hr].
    rewrite app_String. simpl. rewrite Hc, IH; done.
Qed.

Lemma match_here_bare name rest :
  is_name name = true → continues_name rest = false →
  match_here (String "$" name +:+ rest) = Some (String "$" name).
Proof.
  intros Hn Hrest. destruct name as [|d r]; [done|].
  simpl in Hn. apply andb_true_iff in Hn as [Hd Hr].
  unfold match_here, match_braced, match_bare. rewrite !app_String.
  simpl Str.HasPrefix. rewrite (name_start_not_brace _ Hd). simpl.
  rewrite Hd. by rewrite span_name.
Qed.

Lemma match_here_shape s m :
  match_here s = Some m →
  (∃ content rest, m = "${" +:+ content +:+ "}" ∧ s = m +:+ rest) ∨
  (∃ name, m = String "$" name ∧ Str.HasPrefix name "{" = false).
Proof.
  unfold match_here, match_braced, match_bare.
  destruct (Str.HasPrefix s "${") eqn:Hp.
  - apply prefix_drop in Hp. simpl String.length in Hp.
    destruct (Str.Cut "}" (Str.drop 2 s)) as [[content rest]|] eqn:Hc.
    + apply Cut_app in Hc. destruct (decide (content = "")).
      * intros Hm. rewrite Hp in Hm. simpl in Hm. by destruct (is_name_start "{").
      * intros [= <-]. left. exists content, rest. split; [done|].
        rewrite Hp at 1. rewrite Hc. by rewrite !app_assoc_s.
    + intros Hm. rewrite Hp in Hm. simpl in Hm. by destruct (is_name_start "{").
  - destruct s as [|c [|d r]]; try done.
    destruct (Ascii.eqb c "$" && is_name_start d) eqn:E; [|done].
    apply andb_true_iff in E as [->%Ascii.eqb_eq Hd].
    intros [= <-]. right. eexists. split; [done|].
    simpl. by rewrite (name_start_not_brace _ Hd).
Qed.

Lemma expand_inert_id env s : inert s = true → expandEnvVar env s = s.
Proof.
  induction s as [|c r IH]; [done|]. simpl. intros [Hc Hr]%andb_true_iff.
  rewrite expand_no_match by by apply match_here_none_inert.
  by rewrite IH.
Qed.

Lemma drop_app (m t : string) : Str.drop (String.length m) (m +:+ t) = t.
Proof. induction m as [|d m IHm]; [by destruct t|]. by rewrite app_String. Qed.

Lemma replace_all_unset env s : ∀ k,
  (∀ key, Getenv env key = "") → (∀ a b, s ≠ a +:+ ":-" +:+ b) →
  replace_all env k s = Str.drop k s.
Proof.
  induction s as [|c r IH]; intros k Henv Hs; [by destruct k|].
  assert (∀ a b, r ≠ a +:+ ":-" +:+ b) as Hr.
  { intros a b ->. by apply (Hs (String c a) b). }
  destruct k as [|k]; simpl; [|by apply IH].
  destruct (match_here (String c r)) as [m|] eqn:Hm; [|by rewrite IH].
  destruct (match_here_prefix _ _ Hm) as (t & Ht & Hne).
  assert (replacement env m = m) as ->.
  { destruct (match_here_shape _ _ Hm) as [(content & rest & -> & Hrest)|(name & -> & Hn)].
    - pose proof (reference_braced content) as Hrf.
      destruct (Str.Cut ":-" content) as [[n d]|] eqn:Hcut.
      + apply Cut_app in Hcut. subst content. exfalso.
        apply (Hs ("${" +:+ n) (d +:+ "}" +:+ rest)). rewrite Hrest.
        by rewrite !app_assoc_s.
      + rewrite (replacement_resolution _ _ _ _ Hrf).
        rewrite decide_False by (rewrite Henv; naive_solver).
        by rewrite decide_False by naive_solver.
    - rewrite (replacement_resolution _ _ _ _ (reference_bare _ Hn)).
      rewrite decide_False by (rewrite Henv; naive_solver).
      by rewrite decide_False by naive_solver. }
  rewrite IH by done. destruct m as [|c' m]; [done|].
  rewrite app_String in Ht. injection Ht as -> ->.
  replace (String.length (String c' m) - 1)%nat with (String.length m)
    by (simpl; lia).
  by rewrite drop_app, app_String.
Qed.

Lemma HasPrefix_app (p t : string) : Str.HasPrefix (p +:+ t) p = true.
Proof.
  induction p as [|c p IH]; [by destruct t|].
  rewrite app_String. simpl. by rewrite Ascii.eqb_refl.
Qed.

Lemma Contains_app (a sep b : string) : Str.Contains (a +:+ sep +:+ b) sep = true.
Proof.
  unfold Str.Contains. induction a as [|c a IH].
  - rewrite app_empty_l, Cut_unfold. by rewrite HasPrefix_app.
  - rewrite app_String, Cut_unfold.
    destruct (Str.HasPrefix _ _); [done|].
    by destruct (Str.Cut sep (a +:+ sep +:+ b)) as [[]|].
Qed.

End ExpandMore.

(** X1. A string in which no dollar sign starts a reference (none is
    followed by an opening brace or by a byte of [A-Z_]) is returned as
    it is, whatever the environment. *)
Theorem expand_inert env s :
  ExpandShape.inert s = true → Expand.expandEnvVar env s = s.
Proof.
  induction s as [|c r IH]; [done|]. simpl. intros [Hc Hr]%andb_true_iff.
  rewrite ExpandFacts.expand_no_match by by apply ExpandMore.match_here_none_inert.
  by rewrite IH.
Qed.

(** X2. A braced reference at the start of a string, with content that
    is not empty and holds no closing brace, is resolved on its own: the
    content is cut at its first [:-] into name and default, and the rest
    of the string is expanded independently. *)
Theorem expand_braced env content rest :
  content ≠ "" → Str.Contains content "}" = false →
  Expand.expandEnvVar env (("${" +:+ content +:+ "}") +:+ rest) =
    (match Str.Cut ":-" content with
     | Some (name, dflt) =>
         ExpandShape.resolve env name dflt ("${" +:+ content +:+ "}")
     | None => ExpandShape.resolve env content "" ("${" +:+ content +:+ "}")
     end) +:+ Expand.expandEnvVar env rest.
Proof.
  intros Hne Hc. rewrite ExpandFacts.expand_match by by apply ExpandMore.match_here_braced.
  f_equal. unfold ExpandShape.resolve.
  pose proof (ExpandFacts.reference_braced content) as Hr.
  destruct (Str.Cut ":-" content) as [[name dflt]|];
    by rewrite (ExpandFacts.replacement_resolution _ _ _ _ Hr).
Qed.

(** X3. A bare reference at the start of a string: a dollar sign, a name
    of [A-Z_][A-Z0-9_]*, and a rest that does not go on with a byte of a
    name.  It has no default, and the rest is expanded independently. *)
Theorem expand_bare env name rest :
  ExpandShape.is_name name = true → ExpandShape.continues_name rest = false →
  Expand.expandEnvVar env (String "$" name +:+ rest) =
    ExpandShape.resolve env name "" (String "$" name) +:+ Expand.expandEnvVar env rest.
Proof.
  intros Hn Hrest.
  rewrite ExpandFacts.expand_match by by apply ExpandMore.match_here_bare.
  f_equal. apply ExpandFacts.replacement_resolution, ExpandFacts.reference_bare.
  destruct name as [|d r]; [done|]. simpl in *.
  apply andb_true_iff in Hn as [Hd _]. by rewrite (ExpandMore.name_start_not_brace _ Hd).
Qed.

(** X4. With no variable set, a string that holds no [:-] is returned
    as it is: every reference is left in place. *)
Theorem expand_unset env s :
  (∀ key, Getenv env key = "") → Str.Contains s ":-" = false →
  Expand.expandEnvVar env s = s.
Proof.
  intros Henv Hs. unfold Expand.expandEnvVar.
  rewrite ExpandMore.replace_all_unset; [done|done|].
  intros a b ->. by rewrite ExpandMore.Contains_app in Hs.
Qed.

(** ** The overlay as a whole *)

Section OverlayMore.
Context `{Unicode} `{FloatOps}.
Implicit Types (fs : list (StructField * value)) (f : StructField) (x v : value).
Implicit Types (w : World) (l : Loader) (t : Target).

Lemma loadStruct_is_struct env x prefix :
  isStruct x = true → isStruct (loadStructFromEnv env x prefix).1 = true.
Proof. destruct x; try done. intros _. by rewrite loadStruct_fields. Qed.

Lemma loadStruct_kind env x prefix :
  kindOf (loadStructFromEnv env x prefix).1 = kindOf x.
Proof. destruct x; try done. by rewrite loadStruct_fields. Qed.

(** The overlay keeps the kind of a field it gets to. *)
Lemma fieldOutcome_kind env prefix f x :
  kindOf (fieldOutcome env (loadStructFromEnv env) prefix f x).1 = kindOf x.
Proof.
  unfold fieldOutcome. destruct (visited f); [|done].
  destruct (isStruct x); [apply loadStruct_kind|].
  simpl. destruct (decide _); [done|].
  destruct (setFieldValue x _) eqn:E; [|done]. by apply setFieldValue_kind in E.
Qed.

(** What the overlay leaves at a path: the field with its metadata, and
    either its old value or the outcome of the loop body on it. *)
Lemma overlay_fieldAt env p : ∀ prefix fs f x,
  fieldAt fs p = Some (f, x) →
  ∃ x', fieldAt (loadFields env (loadStructFromEnv env) fs prefix).1 p = Some (f, x') ∧
        (x' = x ∨
         ∃ prefix', x' = (fieldOutcome env (loadStructFromEnv env) prefix' f x).1).
Proof.
  induction p as [|i q IH]; intros prefix fs f x Hp; [done|].
  simpl in Hp. destruct (fs !! i) as [[f0 x0]|] eqn:Hi; [|done].
  destruct (loadFields_lookup env (loadStructFromEnv env) _ prefix _ _ _ Hi)
    as (x' & Hi' & Hx).
  simpl. rewrite Hi'. destruct q as [|j q].
  - simplify_eq. exists x'. split; [done|]. destruct Hx; [by left|right; eauto].
  - destruct x0 as [| | | | |sub| | | | | |]; try done.
    destruct Hx as [?|?]; subst x'; [by exists x; auto|].
    unfold fieldOutcome. destruct (visited f0); [|by exists x; auto].
    simpl isStruct. cbv iota. rewrite loadStruct_fields. simpl. by apply IH.
Qed.

Lemma loadFields_unset env rec fs prefix :
  (∀ key, Getenv env key = "") →
  Forall (λ p, ∀ prefix', rec p.2 prefix' = (p.2, None)) fs →
  loadFields env rec fs prefix = (fs, None).
Proof.
  intros Henv. induction 1 as [|[f x] rest Hx Hrest IH]; [done|].
  rewrite loadFields_cons. unfold fieldOutcome.
  assert ((if visited f
           then if isStruct x then rec x ((prefix +:+ envKey f) +:+ "_")
                else if decide (Getenv env (prefix +:+ envKey f) = "") then (x, None)
                else match setFieldValue x (Getenv env (prefix +:+ envKey f)) with
                     | inl x' => (x', None)
                     | inr e => (x, Some (FieldBindError (Name f) (prefix +:+ envKey f) e))
                     end
           else (x, None)) = (x, None)) as ->.
  { destruct (visited f); [|done]. destruct (isStruct x); [apply Hx|].
    by rewrite decide_True. }
  by rewrite IH.
Qed.

Lemma loadFields_idem env rec fs : ∀ prefix fs',
  Forall (λ p, ∀ prefix' y, rec p.2 prefix' = (y, None) →
                 isStruct p.2 = true → rec y prefix' = (y, None) ∧ isStruct y = true) fs →
  loadFields env rec fs prefix = (fs', None) →
  loadFields env rec fs' prefix = (fs', None).
Proof.
  intros prefix fs' HF. revert fs'.
  induction HF as [|[f x] rest Hx Hrest IH]; intros fs'; [by intros [= <-]|].
  rewrite loadFields_cons.
  destruct (fieldOutcome env rec prefix f x) as [x' [e|]] eqn:Ho; [done|].
  destruct (loadFields env rec rest prefix) as [rest' e'] eqn:Hr.
  intros [= <- ->]. rewrite loadFields_cons, (IH _ eq_refl).
  assert (fieldOutcome env rec prefix f x' = (x', None)) as ->; [|done].
  unfold fieldOutcome in *. destruct (visited f); [|by simplify_eq].
  destruct (isStruct x) eqn:Hs.
  - simpl in Hx. destruct (Hx _ _ Ho Hs) as [-> ->]. done.
  - simpl in Ho. destruct (decide _) as [E|E].
    + simplify_eq. rewrite Hs. simpl. by repeat case_decide.
    + destruct (setFieldValue x _) as [y|] eqn:Hset; simplify_eq.
      pose proof (setFieldValue_kind _ _ _ Hset) as Hk.
      rewrite (isStruct_kind _ _ Hk), Hs. simpl.
      by rewrite (setFieldValue_kind_only x x' _ Hk), Hset.
Qed.

Lemma loadFields_env_ext env1 env2 rec1 rec2 fs : ∀ prefix,
  Forall (λ p, ∀ prefix',
            (∀ q k, (∃ sub, p.2 = VStruct sub ∧ leafKey prefix' sub q = Some k) →
                    Getenv env1 k = Getenv env2 k) →
            rec1 p.2 prefix' = rec2 p.2 prefix') fs →
  (∀ q k, leafKey prefix fs q = Some k → Getenv env1 k = Getenv env2 k) →
  loadFields env1 rec1 fs prefix = loadFields env2 rec2 fs prefix.
Proof.
  intros prefix HF. induction HF as [|[f x] rest Hx Hrest IH]; intros Henv; [done|].
  rewrite !loadFields_cons.
  assert (fieldOutcome env1 rec1 prefix f x = fieldOutcome env2 rec2 prefix f x) as ->.
  { unfold fieldOutcome. destruct (visited f) eqn:Hv; [|done].
    destruct (isStruct x) eqn:Hs.
    - simpl in Hx. apply Hx. intros q k (sub & -> & Hk).
      apply (Henv (0 :: q)%nat k). simpl. by rewrite Hv.
    - simpl. rewrite (Henv [0%nat] (prefix +:+ envKey f)); [done|].
      simpl. rewrite Hv. by destruct x. }
  rewrite IH; [done|]. intros q k Hk. destruct q as [|i q]; [done|].
  by apply (Henv (S i :: q) k).
Qed.


Lemma is_digit_val c : Str.is_digit c = true → (0 ≤ Strconv.digit_val c ≤ 9)%Z.
Proof.
  unfold Str.is_digit, Str.byte_in, Strconv.digit_val.
  intros [?%Nat.leb_le ?%Nat.leb_le]%andb_true_iff. lia.
Qed.

Lemma scan_digits_range s : ∀ n z,
  (0 ≤ n ≤ Strconv.maxUint64)%Z → Strconv.scan_digits n s = inl z →
  (0 ≤ z ≤ Strconv.maxUint64)%Z.
Proof.
  induction s as [|c r IH]; intros n z Hn; simpl; [by intros [= <-]|].
  destruct (Str.is_digit c) eqn:Hc; [|done].
  apply is_digit_val in Hc.
  destruct (Strconv.maxUint64 <? n * 10 + Strconv.digit_val c)%Z eqn:Hlt; [done|].
  apply Z.ltb_ge in Hlt. apply IH. lia.
Qed.

Lemma uint_digits_range s z :
  Strconv.uint_digits s = inl z → (0 ≤ z ≤ Strconv.maxUint64)%Z.
Proof.
  unfold Strconv.uint_digits. case_decide; [done|].
  apply scan_digits_range. unfold Strconv.maxUint64. lia.
Qed.

(** [ParseUint] and [ParseInt] stay within 64 bits. *)
Lemma ParseUint_range s z :
  Strconv.ParseUint s = inl z → (0 ≤ z < 2 ^ 64)%Z.
Proof.
  unfold Strconv.ParseUint. destruct (Strconv.uint_digits s) eqn:E; [|done].
  intros [= <-]. apply uint_digits_range in E. unfold Strconv.maxUint64 in E. lia.
Qed.

Lemma ParseInt_range s z :
  Strconv.ParseInt s = inl z → (- 2 ^ 63 ≤ z < 2 ^ 63)%Z.
Proof.
  unfold Strconv.ParseInt. destruct s as [|c r]; [done|].
  destruct (if Ascii.eqb c "+" then (false, r)
            else if Ascii.eqb c "-" then (true, r) else (false, String c r))
    as [neg s'].
  destruct (Strconv.uint_digits s') as [un|[]] eqn:E; [|done..].
  apply uint_digits_range in E.
  destruct neg; simpl.
  - destruct (2 ^ 63 <? un)%Z eqn:Hlt; [done|]. apply Z.ltb_ge in Hlt.
    intros [= <-]. lia.
  - destruct (2 ^ 63 <=? un)%Z eqn:Hle; [done|]. apply Z.leb_gt in Hle.
    intros [= <-]. lia.
Qed.

Lemma wrap_range (b z : Z) :
  (0 < b)%Z →
  let n := ((z + 2 ^ (b - 1)) mod 2 ^ b - 2 ^ (b - 1))%Z in
  (- 2 ^ (b - 1) ≤ n < 2 ^ (b - 1))%Z ∧ ((n - z) mod 2 ^ b = 0)%Z ∧
  ((- 2 ^ (b - 1) ≤ z < 2 ^ (b - 1))%Z → n = z).
Proof.
  intros Hb n. assert (2 ^ b = 2 * 2 ^ (b - 1))%Z as Hp.
  { rewrite <- Z.pow_succ_r by lia. f_equal. lia. }
  assert (0 < 2 ^ (b - 1))%Z as Hh by (apply Z.pow_pos_nonneg; lia).
  pose proof (Z.mod_pos_bound (z + 2 ^ (b - 1)) (2 ^ b) ltac:(lia)) as Hm.
  split; [|split].
  - subst n. lia.
  - subst n. rewrite (Z.mod_eq (z + 2 ^ (b - 1)) (2 ^ b)) by lia.
    replace (z + 2 ^ (b - 1) - 2 ^ b * ((z + 2 ^ (b - 1)) / 2 ^ b) - 2 ^ (b - 1) - z)%Z
      with (- ((z + 2 ^ (b - 1)) / 2 ^ b) * 2 ^ b)%Z by lia.
    apply Z.mod_mul. lia.
  - intros Hx. subst n. rewrite Z.mod_small by lia. lia.
Qed.

Lemma wrap_int_spec k (z : Z) :
  (- 2 ^ (int_bits k - 1) ≤ wrap_int k z < 2 ^ (int_bits k - 1))%Z ∧
  ((wrap_int k z - z) mod 2 ^ int_bits k = 0)%Z ∧
  ((- 2 ^ (int_bits k - 1) ≤ z < 2 ^ (int_bits k - 1))%Z → wrap_int k z = z).
Proof. apply (wrap_range (int_bits k) z). by destruct k. Qed.

Lemma Getenv_empty key : Getenv ∅ key = "".
Proof. unfold Getenv, Env. case_decide; [done|]. by rewrite lookup_empty. Qed.

Lemma loadStruct_unset env v prefix :
  (∀ key, Getenv env key = "") → loadStructFromEnv env v prefix = (v, None).
Proof.
  intros Henv. revert prefix.
  induction v as [| | | | |fs IH| | | | | | | |] using value_ind; intros prefix; try done.
  rewrite loadStruct_fields, (loadFields_unset env _ fs prefix Henv); [done|].
  eapply Forall_impl; [done|]. intros [f x] IHx prefix'. apply IHx.
Qed.

Lemma loadStruct_env_ext env1 env2 v : ∀ prefix,
  (∀ fs q k, v = VStruct fs → leafKey prefix fs q = Some k →
             Getenv env1 k = Getenv env2 k) →
  loadStructFromEnv env1 v prefix = loadStructFromEnv env2 v prefix.
Proof.
  induction v as [| | | | |fs IH| | | | | | | |] using value_ind; intros prefix Henv;
    try done.
  rewrite !loadStruct_fields.
  rewrite (loadFields_env_ext env1 env2 (loadStructFromEnv env1) (loadStructFromEnv env2)
             fs prefix); [done| |by eauto].
  eapply Forall_impl; [done|]. intros [f x] IHx prefix' Hk. simpl in *.
  apply IHx. intros sub q k -> Hq. apply (Hk q k). eauto.
Qed.

Lemma loadStruct_no_leaf_values env fs prefix :
  (∀ q k, leafKey prefix fs q = Some k → Getenv env k = "") →
  loadStructFromEnv env (VStruct fs) prefix = (VStruct fs, None).
Proof.
  intros Henv. rewrite (loadStruct_env_ext env ∅ (VStruct fs) prefix).
  - apply loadStruct_unset, Getenv_empty.
  - intros fs' q k [= <-] Hk. by rewrite Getenv_empty, (Henv q k).
Qed.

(** X5. When none of the variables of the leaves is set, the overlay
    succeeds and leaves the struct as it was, whatever else the
    environment holds. *)
Theorem overlay_without_leaf_values env fs prefix :
  (∀ q k, leafKey prefix fs q = Some k → Getenv env k = "") →
  loadStructFromEnv env (VStruct fs) prefix = (VStruct fs, None).
Proof.
  intros Henv. rewrite (loadStruct_env_ext env ∅ (VStruct fs) prefix).
  - apply loadStruct_unset, Getenv_empty.
  - intros fs' q k [= <-] Hk. by rewrite Getenv_empty, (Henv q k).
Qed.

(** X6. The overlay is idempotent: applied to the result of a successful
    overlay, under the same environment and prefix, it succeeds and
    changes nothing. *)
Theorem overlay_idempotent env v prefix v' :
  loadStructFromEnv env v prefix = (v', None) →
  loadStructFromEnv env v' prefix = (v', None).
Proof.
  revert prefix v'.
  induction v as [| | | | |fs IH| | | | | | | |] using value_ind;
    intros prefix v'; try by intros [= <-].
  rewrite loadStruct_fields. intros [= <- He].
  rewrite loadStruct_fields.
  rewrite (loadFields_idem env (loadStructFromEnv env) fs prefix
             (loadFields env (loadStructFromEnv env) fs prefix).1); [done| |].
  - eapply Forall_impl; [done|]. intros [f x] IHx prefix' y Hy Hs. simpl in *.
    split; [by eapply IHx|].
    replace y with (loadStructFromEnv env x prefix').1 by by rewrite Hy.
    by apply loadStruct_is_struct.
  - rewrite (surjective_pairing (loadFields _ _ fs _)). by f_equal.
Qed.

(** X7. A field that is neither a struct nor of a scalar kind (a map, a
    slice, an array, a pointer, an interface, ...) is never modified by
    the overlay, whether the overlay fails or not. *)
Theorem overlay_leaves_unsupported_kinds env prefix fs p f x :
  fieldAt fs p = Some (f, x) → isStruct x = false → isScalar x = false →
  fieldAt (loadFields env (loadStructFromEnv env) fs prefix).1 p = Some (f, x).
Proof.
  intros Hp Hs Hsc.
  destruct (overlay_fieldAt env p prefix fs f x Hp) as (x' & Hx' & [->|[prefix' ->]]);
    [done|].
  rewrite Hx'. do 2 f_equal. unfold fieldOutcome.
  destruct (visited f); [|done]. rewrite Hs. simpl.
  case_decide; [done|]. by rewrite setFieldValue_unsupported.
Qed.

(** X8. An unexported field is out of the overlay's reach, with all it
    holds: no variable is looked up for it or below it, and it keeps its
    value. *)
Theorem overlay_leaves_unexported env prefix fs p f x :
  fieldAt fs p = Some (f, x) → IsExported f = false →
  (∀ q, leafKey prefix fs (p ++ q) = None) ∧
  fieldAt (loadFields env (loadStructFromEnv env) fs prefix).1 p = Some (f, x).
Proof.
  intros Hp Hf. assert (visited f = false) as Hv by (unfold visited; by rewrite Hf).
  split; [intros q; by eapply leafKey_skipped|by apply overlay_skipped].
Qed.

(** X9. The overlay keeps every field in place, with its name, its tag
    and its kind, whether it fails or not. *)
Theorem overlay_keeps_kinds env prefix fs p f x :
  fieldAt fs p = Some (f, x) →
  ∃ x', fieldAt (loadFields env (loadStructFromEnv env) fs prefix).1 p = Some (f, x') ∧
        kindOf x' = kindOf x.
Proof.
  intros Hp.
  destruct (overlay_fieldAt env p prefix fs f x Hp) as (x' & Hx' & [->|[prefix' ->]]);
    eexists; split; try done. apply fieldOutcome_kind.
Qed.

(** X10. A signed integer field set from a text: the text parses as a
    64-bit integer, and the field holds that integer wrapped to the width
    of its kind, hence the integer itself when it fits. *)
Theorem signed_field_value k old raw new :
  setFieldValue (VInt k old) raw = inl new →
  ∃ z n, Strconv.ParseInt raw = inl z ∧ (- 2 ^ 63 ≤ z < 2 ^ 63)%Z ∧
         new = VInt k n ∧
         (- 2 ^ (int_bits k - 1) ≤ n < 2 ^ (int_bits k - 1))%Z ∧
         ((n - z) mod 2 ^ int_bits k = 0)%Z ∧
         ((- 2 ^ (int_bits k - 1) ≤ z < 2 ^ (int_bits k - 1))%Z → n = z).
Proof.
  simpl. destruct (Strconv.ParseInt raw) as [z|] eqn:E; [|done]. intros [= <-].
  pose proof (ParseInt_range _ _ E) as Hz.
  destruct (wrap_int_spec k z) as (Hr & Hm & Hx).
  exists z, (wrap_int k z). tauto.
Qed.

(** X11. An unsigned integer field set from a text: the text parses as
    an unsigned 64-bit integer, and the field holds it reduced modulo two
    to the width of its kind. *)
Theorem unsigned_field_value k old raw new :
  setFieldValue (VUint k old) raw = inl new →
  ∃ z n, Strconv.ParseUint raw = inl z ∧ (0 ≤ z < 2 ^ 64)%Z ∧
         new = VUint k n ∧
         (0 ≤ n < 2 ^ uint_bits k)%Z ∧
         ((n - z) mod 2 ^ uint_bits k = 0)%Z ∧
         ((z < 2 ^ uint_bits k)%Z → n = z).
Proof.
  simpl. destruct (Strconv.ParseUint raw) as [z|] eqn:E; [|done]. intros [= <-].
  pose proof (ParseUint_range _ _ E) as Hz.
  assert (0 < 2 ^ uint_bits k)%Z as Hp by (by destruct k).
  pose proof (Z.mod_pos_bound z (2 ^ uint_bits k) Hp) as Hr.
  assert (((wrap_uint k z - z) mod 2 ^ uint_bits k)%Z = 0%Z) as Hm.
  { unfold wrap_uint. rewrite Zminus_mod_idemp_l, Z.sub_diag. apply Z.mod_0_l. lia. }
  assert ((z < 2 ^ uint_bits k)%Z → wrap_uint k z = z) as Hx.
  { intros Hlt. apply Z.mod_small. lia. }
  exists z, (wrap_uint k z). unfold wrap_uint in *. tauto.
Qed.

(** X12. The overlay depends on the environment through the variables of
    the leaves only: two environments that agree on them give the same
    result. *)
Theorem overlay_reads_leaf_keys_only env1 env2 fs prefix :
  (∀ q k, leafKey prefix fs q = Some k → Getenv env1 k = Getenv env2 k) →
  loadStructFromEnv env1 (VStruct fs) prefix = loadStructFromEnv env2 (VStruct fs) prefix.
Proof.
  intros Henv. apply loadStruct_env_ext. intros fs' q k [= <-]. apply Henv.
Qed.

(** X13. A target that is not a pointer to a struct when the overlay
    starts makes [Load] return the error of [loadFromEnv], with the
    target untouched and no later phase run. *)
Theorem invalid_target_rejected w l t c1 k1 :
  filePhase w l (config t) = (c1, None, k1) →
  (∀ fs, c1 ≠ Some (VPtr (Some (VStruct fs)))) →
  Load w l t =
    mkOutcome (Returned (Some (FromEnvironment NotStructPointer))) c1
      (k1 ++ [CallLoadFromEnv]).
Proof.
  intros Hf Hc. eapply Load_env_failed; [done|].
  destruct c1 as [[| | | | | | | | |[[| | | | |fs| | | | | |]|]| |]|]; try done.
  by destruct (Hc fs).
Qed.

(** X26. A failing overlay is not rolled back: when the loop over the
    fields of a struct fails at a field, the fields before it keep what
    the overlay has set them to, and the fields after it are not
    visited. *)
Theorem overlay_failure_is_partial env prefix fs1 fs1' f x x' e fs2 :
  loadFields env (loadStructFromEnv env) fs1 prefix = (fs1', None) →
  fieldOutcome env (loadStructFromEnv env) prefix f x = (x', Some e) →
  loadFields env (loadStructFromEnv env) (fs1 ++ (f, x) :: fs2) prefix =
    (fs1' ++ (f, x') :: fs2, Some e).
Proof.
  revert fs1'. induction fs1 as [|[f0 x0] fs1 IH]; intros fs1' H1 Ho.
  - injection H1 as <-. simpl app. by rewrite loadFields_cons, Ho.
  - rewrite <- app_comm_cons, loadFields_cons. rewrite loadFields_cons in H1.
    destruct (fieldOutcome env _ prefix f0 x0) as [x0' [e0|]]; [done|].
    destruct (loadFields env _ fs1 prefix) as [r1 [e1|]] eqn:Hr; [done|].
    injection H1 as <-. by rewrite (IH r1 eq_refl Ho).
Qed.

End OverlayMore.

(** ** The file phase, [Load] and the convenience functions *)

Section LoadMore.
Context `{Unicode} `{FloatOps}.
Implicit Types (fs : list (StructField * value)) (f : StructField) (x v : value).
Implicit Types (w : World) (l : Loader) (t : Target).

Lemma Ext_plain e : plain_ext e = true → Ext e = "" ∧ has_separator e = false.
Proof.
  induction e as [|c e IH]; [done|]. simpl.
  intros [Hc He]%andb_true_iff. destruct (IH He) as [-> ->].
  apply negb_true_iff, orb_false_iff in Hc as [-> ->]. done.
Qed.

(** [filepath.Ext] of a path that ends in a dot and a proper extension. *)
Lemma Ext_suffix base e :
  plain_ext e = true → Ext (base +:+ String "." e) = String "." e.
Proof.
  intros He. destruct (Ext_plain e He) as [Hx Hs].
  induction base as [|c base IH].
  - rewrite app_empty_l. simpl. by rewrite Hx, Hs.
  - rewrite app_String. simpl. by rewrite IH.
Qed.

Lemma plain_ext_app a b : plain_ext (a +:+ b) = plain_ext a && plain_ext b.
Proof.
  induction a as [|c a IH]; [done|]. unfold plain_ext in *.
  rewrite app_String. simpl. by rewrite IH, andb_assoc.
Qed.

Lemma wide_byte_plain c :
  Str.is_ascii_byte c = false → negb (Ascii.eqb c "." || Ascii.eqb c "/") = true.
Proof.
  intros Hc. apply negb_true_iff, orb_false_iff.
  split; apply Ascii.eqb_neq; intros ->; by vm_compute in Hc.
Qed.

Lemma lower_runes_plain e : ∀ run,
  plain_ext (Str.map_runes Str.lower_byte lower_run run e) = true → plain_ext e = true.
Proof.
  induction e as [|c e IH]; intros run; [done|]. simpl.
  destruct (Str.is_ascii_byte c) eqn:Hc.
  - rewrite plain_ext_app. unfold plain_ext at 2 3. simpl.
    intros [_ [Hb He]%andb_true_iff]%andb_true_iff.
    apply andb_true_iff. split; [|by apply (IH "")].
    apply negb_true_iff, orb_false_iff in Hb as [Hd Hs].
    apply negb_true_iff, orb_false_iff.
    split; apply Ascii.eqb_neq; intros ->; by vm_compute in Hd, Hs.
  - intros He. unfold plain_ext. simpl. rewrite (wide_byte_plain _ Hc). simpl.
    by apply (IH _ He).
Qed.

Lemma lower_plain e e' :
  Str.ToLower e = e' → plain_ext e' = true → plain_ext e = true.
Proof. intros <-. apply lower_runes_plain. Qed.

Lemma filePhase_calls w l c :
  (filePhase w l c).2 = if decide (configPath l ≠ "") then [CallLoadFromFile] else [].
Proof. unfold filePhase. by case_decide. Qed.

(** X14. The decoder is chosen by what follows the last dot of the path,
    whatever its case and whatever dots the directories hold: [json]
    selects the JSON decoder, [yaml] and [yml] the YAML one; the target is
    what the decoder leaves, the error the decoder's own, wrapped. *)
Theorem decoder_chosen_by_suffix w base e data c :
  ReadFile w (base +:+ String "." e) = FileData data →
  Str.ToLower e ∈ ["yaml"; "yml"; "json"] →
  loadFromFile w (base +:+ String "." e) c =
    if decide (Str.ToLower e = "json")
    then ((jsonUnmarshal w data c).1, ParseJSONFailed <$> (jsonUnmarshal w data c).2)
    else ((yamlUnmarshal w data c).1, ParseYAMLFailed <$> (yamlUnmarshal w data c).2).
Proof.
  intros Hr Hin. unfold loadFromFile. rewrite Hr.
  assert (∀ e', Str.ToLower e = e' → plain_ext e' = true →
                Str.ToLower (Ext (base +:+ String "." e)) = String "." e') as Hext.
  { intros e' He' Hp. rewrite Ext_suffix by by eapply lower_plain.
    rewrite <- He'. reflexivity. }
  rewrite !elem_of_cons, elem_of_nil in Hin.
  destruct Hin as [Hy|[Hy|[Hy|[]]]]; rewrite (Hext _ Hy eq_refl), Hy; simpl.
  - by destruct (yamlUnmarshal w data c).
  - by destruct (yamlUnmarshal w data c).
  - by destruct (jsonUnmarshal w data c).
Qed.

(** X15. [LoadFromEnv] does not look at the file system: it never calls
    [loadFromFile], and two worlds with the same environment give the same
    outcome, whatever their files and decoders. *)
Theorem LoadFromEnv_ignores_files w1 w2 prefix t :
  environ w1 = environ w2 →
  LoadFromEnv w1 prefix t = LoadFromEnv w2 prefix t ∧
  CallLoadFromFile ∉ calls (LoadFromEnv w1 prefix t).
Proof.
  intros He. split.
  - unfold LoadFromEnv, Load, filePhase. simpl. by rewrite He.
  - unfold LoadFromEnv, Load, filePhase, defaultsHook. simpl.
    destruct (loadFromEnv _ _ _) as [c2 [e2|]]; simpl;
      [|destruct (substituteEnvVars _ _) as [c3| |]; simpl;
        [destruct (SetDefaults t), c3; simpl|..]];
      rewrite ?elem_of_cons, ?elem_of_nil; intuition congruence.
Qed.

(** X16. [Load] never returns the error of the interpolation phase: it
    panics, returns no error, or returns the error of the file phase or
    of the overlay.  The overlay has rejected every target for which
    [substituteEnvVars] has an error. *)
Theorem Load_never_fails_in_substitution w l t :
  result (Load w l t) = Panicked ∨
  result (Load w l t) = Returned None ∨
  (∃ e, result (Load w l t) = Returned (Some (FromFile e))) ∨
  (∃ e, result (Load w l t) = Returned (Some (FromEnvironment e))).
Proof.
  destruct (Load_outcomes w l t) as
    [(c1 & e1 & k1 & _ & ->)|[(c1 & k1 & c2 & e2 & _ & _ & ->)|
     [(c1 & k1 & c2 & _ & _ & _ & ->)|(c1 & k1 & c2 & c3 & _ & _ & _ & ->)]]]; simpl; eauto.
Qed.

(** X17. [SetDefaults] is called exactly when the target has the method
    and [Load] returns no error; it is then the last call, made once, and
    what it leaves is what [Load] leaves. *)
Theorem SetDefaults_called_last_and_once w l t :
  (CallSetDefaults ∈ calls (Load w l t) ↔
     is_Some (SetDefaults t) ∧ result (Load w l t) = Returned None) ∧
  (∀ hook, SetDefaults t = Some hook → result (Load w l t) = Returned None →
     ∃ k v, calls (Load w l t) = k ++ [CallSetDefaults] ∧ (CallSetDefaults ∉ k) ∧
            final (Load w l t) = Some (hook v)).
Proof.
  pose proof (filePhase_calls w l (config t)) as Hk.
  assert (∀ k1, (filePhase w l (config t)).2 = k1 →
            CallSetDefaults ∉ k1 ++ [CallLoadFromEnv; CallSubstituteEnvVars]) as Hk1.
  { intros k1 <-. rewrite Hk.
    case_decide; simpl; rewrite ?elem_of_cons, ?elem_of_nil; intuition congruence. }
  split.
  - destruct (Load_outcomes w l t) as
      [(c1 & e1 & k1 & Hf & ->)|[(c1 & k1 & c2 & e2 & Hf & _ & ->)|
       [(c1 & k1 & c2 & Hf & _ & _ & ->)|(c1 & k1 & c2 & c3 & Hf & He & Hs & ->)]]];
      simpl; specialize (Hk1 k1); rewrite Hf in Hk1; specialize (Hk1 eq_refl);
      rewrite elem_of_app, !elem_of_cons, elem_of_nil in Hk1.
    + split; [tauto|]. by intros [_ [=]].
    + rewrite elem_of_app, !elem_of_cons, elem_of_nil. split; [tauto|]. by intros [_ [=]].
    + rewrite !elem_of_app, !elem_of_cons, elem_of_nil. split; [tauto|]. by intros [_ [=]].
    + destruct (loadFromEnv_ok _ _ _ _ He) as (fs1 & fs2 & -> & -> & _).
      unfold substituteEnvVars in Hs. destruct (substituteValue _ _ _ _); [|done].
      injection Hs as <-. rewrite defaultsHook_calls.
      rewrite !elem_of_app, !elem_of_cons, elem_of_nil.
      destruct (SetDefaults t) as [hook|].
      * rewrite !elem_of_cons. split; [eauto|tauto].
      * rewrite elem_of_nil. split; [tauto|]. by intros [[] _].
  - intros hook Hh Hr.
    destruct (Load_succeeded w l t Hr) as (k1 & fs1 & fs2 & fs3 & Hf & _ & _ & -> & ->).
    specialize (Hk1 k1). rewrite Hf in Hk1. specialize (Hk1 eq_refl).
    unfold defaultsHook. rewrite Hh. simpl.
    exists (k1 ++ [CallLoadFromEnv; CallSubstituteEnvVars]), (VPtr (Some (VStruct fs3))).
    split; [by rewrite <- app_assoc|]. by split.
Qed.

(** X18. When the configuration file does not exist, [LoadWithDefaults]
    returns and leaves what [LoadFromEnv] does with the same prefix, and
    [LoadFromFile] what [LoadFromEnv] does with the empty prefix. *)
Theorem missing_file_is_env_only w path prefix t :
  ReadFile w path = NotExist →
  (result (LoadWithDefaults w path prefix t) = result (LoadFromEnv w prefix t) ∧
   final (LoadWithDefaults w path prefix t) = final (LoadFromEnv w prefix t)) ∧
  (result (LoadFromFile w path t) = result (LoadFromEnv w "" t) ∧
   final (LoadFromFile w path t) = final (LoadFromEnv w "" t)).
Proof.
  intros Hr.
  assert (∀ p, result (Load w (NewLoader path p) t) = result (Load w (NewLoader "" p) t) ∧
               final (Load w (NewLoader path p) t) = final (Load w (NewLoader "" p) t))
    as Hp; [|split; apply Hp].
  intros p. unfold Load, filePhase, loadFromFile. simpl.
  case_decide; [rewrite Hr|]; simpl;
    destruct (loadFromEnv _ _ _) as [c2 [e2|]]; try done;
    destruct (substituteEnvVars _ _); try done; by destruct (defaultsHook _ _).
Qed.

End LoadMore.

(** ** The interpolation walk as a whole *)

Section InterpMore.
Context `{Unicode} `{FloatOps}.
Implicit Types (fs : list (StructField * value)) (f : StructField) (x v : value).

Lemma forallb_Forall {A} (c : A → bool) (xs : list A) :
  forallb c xs = true ↔ Forall (λ a, c a = true) xs.
Proof.
  induction xs as [|a xs IH]; simpl; [by split|].
  rewrite andb_true_iff, Forall_cons. tauto.
Qed.

Lemma Forall_both {A} (P Q : A → Prop) (xs : list A) :
  Forall P xs → Forall Q xs → Forall (λ a, P a ∧ Q a) xs.
Proof. intros HP HQ. by apply Forall_and. Qed.

Lemma mapM_id {A} (g : A → option A) (xs k : list A) :
  mapM g xs = Some k → Forall (λ a, ∀ b, g a = Some b → b = a) xs → k = xs.
Proof.
  intros Hm HF. pose proof (mapM_fmap_eq g id id xs k Hm HF) as He.
  by rewrite !list_fmap_id in He.
Qed.

(** Below an unexported field the walk changes nothing. *)
Lemma substitute_read_only env v : ∀ addr v',
  substituteValue env addr true v = Some v' → v' = v.
Proof.
  induction v as [| | | | |fs IH|ok es IH|xs IH|xs IH|x IH| |x IH| |] using value_ind;
    intros addr v' Hs; try (simpl in Hs; by simplify_eq).
  - simpl in Hs. rewrite andb_false_r in Hs. by simplify_eq.
  - simpl in Hs. apply fmap_Some in Hs as (k & Hm & ->). f_equal.
    eapply mapM_id; [done|]. eapply Forall_impl; [done|].
    intros [f x] IHx [f' x'] (y & Hy & [= -> ->])%fmap_Some. simpl in *.
    f_equal. eauto.
  - rewrite substitute_map in Hs. apply fmap_Some in Hs as (k & Hm & ->). f_equal.
    eapply mapM_id; [done|]. eapply Forall_impl; [done|].
    intros [key x] IHx [key' x'] (y & Hy & [= -> ->])%fmap_Some. simpl in *.
    f_equal.
    destruct x as [| | | | | | | | | |[[]|]|];
      first [ exact (IHx false y Hy) | by simplify_eq/= ].
  - simpl in Hs. apply fmap_Some in Hs as (k & Hm & ->). f_equal.
    eapply mapM_id; [done|]. eapply Forall_impl; [done|].
    intros x IHx y Hy. eauto.
  - simpl in Hs. apply fmap_Some in Hs as (k & Hm & ->). f_equal.
    eapply mapM_id; [done|]. eapply Forall_impl; [done|].
    intros x IHx y Hy. eauto.
  - simpl in Hs. apply fmap_Some in Hs as (k & Hm & ->). simpl. do 2 f_equal. eauto.
  - simpl in Hs. apply fmap_Some in Hs as (k & Hm & ->). simpl. do 2 f_equal. eauto.
Qed.

Lemma substitute_inert env v : ∀ addr ro v',
  allStrings ExpandShape.inert v = true →
  substituteValue env addr ro v = Some v' → v' = v.
Proof.
  induction v as [| | | | |fs IH|ok es IH|xs IH|xs IH|x IH| |x IH| |] using value_ind;
    intros addr ro v' Ha Hs; try (simpl in Hs; by simplify_eq).
  - simpl in *. rewrite ExpandMore.expand_inert_id in Hs by done.
    by destruct (addr && negb ro); simplify_eq.
  - simpl in Hs, Ha. apply fmap_Some in Hs as (k & Hm & ->). f_equal.
    eapply mapM_id; [done|]. apply forallb_Forall in Ha.
    eapply Forall_impl; [exact (Forall_both _ _ _ IH Ha)|].
    intros [f x] [IHx Hx] [f' x'] (y & Hy & [= -> ->])%fmap_Some. simpl in *.
    f_equal. eauto.
  - rewrite substitute_map in Hs. simpl in Ha.
    apply fmap_Some in Hs as (k & Hm & ->). f_equal.
    eapply mapM_id; [done|]. apply forallb_Forall in Ha.
    eapply Forall_impl; [exact (Forall_both _ _ _ IH Ha)|].
    intros [key x] [IHx Hx] [key' x'] (y & Hy & [= -> ->])%fmap_Some. simpl in *.
    f_equal.
    destruct x as [| | | |s| | | | | |[[| | | |s| | | | | | |]|]|];
      first [ exact (IHx false ro y Hx Hy)
            | simpl in Hx; unfold entryOutcome in Hy;
              rewrite ExpandMore.expand_inert_id in Hy by done;
              by destruct ro, ok; simplify_eq/= ].
  - simpl in Hs, Ha. apply fmap_Some in Hs as (k & Hm & ->). f_equal.
    eapply mapM_id; [done|]. apply forallb_Forall in Ha.
    eapply Forall_impl; [exact (Forall_both _ _ _ IH Ha)|].
    intros x [IHx Hx] y Hy. eauto.
  - simpl in Hs, Ha. apply fmap_Some in Hs as (k & Hm & ->). f_equal.
    eapply mapM_id; [done|]. apply forallb_Forall in Ha.
    eapply Forall_impl; [exact (Forall_both _ _ _ IH Ha)|].
    intros x [IHx Hx] y Hy. eauto.
  - simpl in Hs, Ha. apply fmap_Some in Hs as (k & Hm & ->). simpl. do 2 f_equal. eauto.
  - simpl in Hs, Ha. apply fmap_Some in Hs as (k & Hm & ->). simpl. do 2 f_equal. eauto.
Qed.

Lemma exportedOnly_completes v :
  exportedOnly v = true → mapsHoldStrings v = true → completes false v = true.
Proof.
  induction v as [| | | | |fs IH|ok es IH|xs IH|xs IH|x IH| |x IH| |] using value_ind;
    try done; simpl; intros He Hm; try (by eauto).
  - apply forallb_Forall in He, Hm. apply forallb_Forall.
    eapply Forall_impl; [exact (Forall_both _ _ _ IH (Forall_both _ _ _ He Hm))|].
    intros [f x] [IHx [[Hf Hx]%andb_true_iff Hmx]]. simpl in *.
    unfold fieldRO. rewrite Hf. simpl. eauto.
  - apply andb_true_iff in Hm as [-> Hm].
    apply forallb_Forall in He, Hm. apply forallb_Forall.
    eapply Forall_impl; [exact (Forall_both _ _ _ IH (Forall_both _ _ _ He Hm))|].
    intros [key x] [IHx [Hx Hmx]]. simpl in *.
    destruct x as [| | | | | | | | | |[[]|]|]; try done; by apply IHx.
  - apply forallb_Forall in He, Hm. apply forallb_Forall.
    eapply Forall_impl; [exact (Forall_both _ _ _ IH (Forall_both _ _ _ He Hm))|].
    intros x [IHx [Hx Hmx]]. eauto.
  - apply forallb_Forall in He, Hm. apply forallb_Forall.
    eapply Forall_impl; [exact (Forall_both _ _ _ IH (Forall_both _ _ _ He Hm))|].
    intros x [IHx [Hx Hmx]]. eauto.
Qed.

(** X19. Interpolation leaves an unexported field of a struct that is
    not embedded as it was, with all it holds, whenever it runs to its
    end. *)
Theorem interpolation_spares_unexported env addr ro fs v' i f x :
  substituteValue env addr ro (VStruct fs) = Some v' →
  fs !! i = Some (f, x) → IsExported f = false → Embedded f = false →
  valueAt v' [SField i] = Some x.
Proof.
  intros Hs Hi Hf He. simpl in Hs. apply fmap_Some in Hs as (k & Hm & ->).
  destruct (mapM_lookup _ _ _ _ _ Hm Hi) as ([f1 x1] & Hi' & Hg).
  apply fmap_Some in Hg as (x0' & Hg & [= -> ->]).
  unfold fieldRO in Hg. rewrite Hf, He, orb_true_r in Hg.
  apply substitute_read_only in Hg. subst x0'.
  simpl. by rewrite Hi'.
Qed.

Lemma substitute_inert_id env addr ro v :
  allStrings ExpandShape.inert v = true → completes ro v = true →
  substituteValue env addr ro v = Some v.
Proof.
  intros Ha Hc. destruct (substitute_completes env v addr ro) as [_ [v' Hs]]; [done|].
  by rewrite Hs, (substitute_inert _ _ _ _ _ Ha Hs).
Qed.

(** X20. A value none of whose strings holds a reference is left as it
    is by the walk, whatever the environment, whenever the walk runs to
    its end. *)
Theorem interpolation_identity_on_inert env addr ro v :
  allStrings ExpandShape.inert v = true → completes ro v = true →
  substituteValue env addr ro v = Some v.
Proof.
  intros Ha Hc. destruct (substitute_completes env v addr ro) as [_ [v' Hs]]; [done|].
  by rewrite Hs, (substitute_inert _ _ _ _ _ Ha Hs).
Qed.

(** X21. On a target all of whose struct fields are exported and all of
    whose maps have an element type that can hold a [string], at every
    depth, the interpolation phase runs to its end: it returns, with no
    error. *)
Theorem interpolation_completes_if_exported env v :
  exportedOnly v = true → mapsHoldStrings v = true →
  ∃ v', substituteEnvVars env (Some (VPtr (Some v))) = SubstDone (Some (VPtr (Some v'))).
Proof.
  intros He Hm. pose proof (exportedOnly_completes v He Hm) as Hc.
  unfold substituteEnvVars.
  destruct (substitute_completes env v true false) as [_ [v' ->]]; eauto.
Qed.

(** X27. A load with nothing to do: when the file phase leaves a pointer
    to a struct, none of the variables of its leaves is set, none of its
    strings holds a reference and the walk runs to its end, [Load] returns
    no error and leaves the target as the file phase left it, up to the
    defaults hook. *)
Theorem Load_with_nothing_to_do w l t fs k1 :
  filePhase w l (config t) = (Some (VPtr (Some (VStruct fs))), None, k1) →
  (∀ q k, leafKey (envPrefix l) fs q = Some k → Getenv (environ w) k = "") →
  allStrings ExpandShape.inert (VStruct fs) = true →
  completes false (VStruct fs) = true →
  Load w l t =
    mkOutcome (Returned None) (defaultsHook t (Some (VPtr (Some (VStruct fs))))).1
      ((k1 ++ [CallLoadFromEnv]) ++ [CallSubstituteEnvVars] ++
         (defaultsHook t (Some (VPtr (Some (VStruct fs))))).2).
Proof.
  intros Hf Henv Ha Hc.
  assert (loadFromEnv (environ w) (envPrefix l) (Some (VPtr (Some (VStruct fs)))) =
            (Some (VPtr (Some (VStruct fs))), None)) as He.
  { unfold loadFromEnv. by rewrite loadStruct_no_leaf_values. }
  rewrite (Load_later _ _ _ _ _ _ Hf He). unfold substituteEnvVars.
  by rewrite substitute_inert_id.
Qed.

End InterpMore.

(** ** The base configuration *)

Section BaseFacts.
Context `{Unicode} `{FloatConsts}.


(** X23. After [SetServerDefaults] no defaulted field of the server part is
    zero; a field that was not zero keeps its value, and the observability
    part is not touched. *)
Theorem server_defaults_fill_zero_fields c :
  let s := BaseConfig.Server c in
  let s' := BaseConfig.Server (SetServerDefaults c) in
  (ServerConfig.Port s' ≠ 0%Z ∧ ServerConfig.Host s' ≠ "" ∧
   ServerConfig.ReadTimeout s' ≠ 0%Z ∧ ServerConfig.WriteTimeout s' ≠ 0%Z ∧
   ServerConfig.IdleTimeout s' ≠ 0%Z) ∧
  (ServerConfig.Port s ≠ 0%Z → ServerConfig.Port s' = ServerConfig.Port s) ∧
  (ServerConfig.Host s ≠ "" → ServerConfig.Host s' = ServerConfig.Host s) ∧
  (ServerConfig.ReadTimeout s ≠ 0%Z →
     ServerConfig.ReadTimeout s' = ServerConfig.ReadTimeout s) ∧
  (ServerConfig.WriteTimeout s ≠ 0%Z →
     ServerConfig.WriteTimeout s' = ServerConfig.WriteTimeout s) ∧
  (ServerConfig.IdleTimeout s ≠ 0%Z →
     ServerConfig.IdleTimeout s' = ServerConfig.IdleTimeout s) ∧
  BaseConfig.Observability (SetServerDefaults c) = BaseConfig.Observability c.
Proof.
  destruct c as [[port host rt wt it] o]. simpl.
  split_and!; try done; repeat case_decide; try done; by subst.
Qed.

(** X24. After [SetObservabilityDefaults] no defaulted field of the
    observability part is zero; a field that was not zero keeps its value,
    the fields without a default keep theirs, and the server part is not
    touched. *)
Theorem observability_defaults_fill_zero_fields c :
  float_is_zero float_one = false →
  let o := BaseConfig.Observability c in
  let o' := BaseConfig.Observability (SetObservabilityDefaults c) in
  let lg := ObservabilityConfig.Logging o in
  let lg' := ObservabilityConfig.Logging o' in
  let m := ObservabilityConfig.Metrics o in
  let m' := ObservabilityConfig.Metrics o' in
  let tr := ObservabilityConfig.Tracing o in
  let tr' := ObservabilityConfig.Tracing o' in
  (LoggingConfig.Level lg' ≠ "" ∧ LoggingConfig.Format lg' ≠ "" ∧
   MetricsConfig.Port m' ≠ 0%Z ∧ MetricsConfig.Path m' ≠ "" ∧
   float_is_zero (TracingConfig.Sampler tr') = false) ∧
  (LoggingConfig.Level lg ≠ "" → LoggingConfig.Level lg' = LoggingConfig.Level lg) ∧
  (LoggingConfig.Format lg ≠ "" → LoggingConfig.Format lg' = LoggingConfig.Format lg) ∧
  (MetricsConfig.Port m ≠ 0%Z → MetricsConfig.Port m' = MetricsConfig.Port m) ∧
  (MetricsConfig.Path m ≠ "" → MetricsConfig.Path m' = MetricsConfig.Path m) ∧
  (float_is_zero (TracingConfig.Sampler tr) = false →
     TracingConfig.Sampler tr' = TracingConfig.Sampler tr) ∧
  MetricsConfig.Enabled m' = MetricsConfig.Enabled m ∧
  TracingConfig.Enabled tr' = TracingConfig.Enabled tr ∧
  TracingConfig.Endpoint tr' = TracingConfig.Endpoint tr ∧
  BaseConfig.Server (SetObservabilityDefaults c) = BaseConfig.Server c.
Proof.
  intros Hone. destruct c as [s [[lv fm] [en mp pa] [te ep sa]]]. simpl.
  split_and!; try done; repeat case_decide; try done; try (by subst);
    destruct (float_is_zero sa) eqn:Hs; done.
Qed.

(** X25. [SetServerDefaults] and [SetObservabilityDefaults] are
    idempotent, and they commute. *)
Theorem base_defaults_idempotent_commute c :
  float_is_zero float_one = false →
  SetServerDefaults (SetServerDefaults c) = SetServerDefaults c ∧
  SetObservabilityDefaults (SetObservabilityDefaults c) = SetObservabilityDefaults c ∧
  SetServerDefaults (SetObservabilityDefaults c) =
    SetObservabilityDefaults (SetServerDefaults c).
Proof.
  intros Hone. destruct c as [[port host rt wt it] [[lv fm] [en mp pa] [te ep sa]]].
  unfold SetServerDefaults, SetObservabilityDefaults. simpl. split_and!; [| |done].
  - repeat case_decide; try done; by subst.
  - destruct (float_is_zero sa) eqn:Hs; rewrite ?Hone, ?Hs;
      repeat case_decide; try done; by subst.
Qed.

End BaseFacts.

(** * The further properties at concrete inputs *)

Section MoreClosed.
#[local] Existing Instance ascii_text.
#[local] Existing Instance no_floats.

Lemma expand_inert_witness :
  Expand.expandEnvVar Sample.home "cost: $5 (100%)" = "cost: $5 (100%)".
Proof. apply (expand_inert Sample.home "cost: $5 (100%)"). reflexivity. Defined.

Lemma expand_braced_witness :
  Expand.expandEnvVar Sample.home "${HOME:-/tmp}/bin" =
    ExpandShape.resolve Sample.home "HOME" "/tmp" "${HOME:-/tmp}" +:+
      Expand.expandEnvVar Sample.home "/bin".
Proof.
  apply (expand_braced Sample.home "HOME:-/tmp" "/bin"); [discriminate|reflexivity].
Defined.

Lemma expand_bare_witness :
  Expand.expandEnvVar Sample.home "$HOME/bin" =
    ExpandShape.resolve Sample.home "HOME" "" "$HOME" +:+
      Expand.expandEnvVar Sample.home "/bin".
Proof. apply (expand_bare Sample.home "HOME" "/bin"); reflexivity. Defined.

Lemma expand_unset_witness :
  Expand.expandEnvVar ∅ "${A} and $B" = "${A} and $B".
Proof.
  apply (expand_unset ∅ "${A} and $B"); [apply Getenv_empty|reflexivity].
Defined.

Lemma overlay_without_leaf_values_witness :
  loadStructFromEnv Sample.home (VStruct Sample.host) "APP_" =
    (VStruct Sample.host, None).
Proof.
  apply (overlay_without_leaf_values Sample.home Sample.host "APP_").
  intros q k Hk. destruct q as [|[|i] [|j q]]; try discriminate Hk.
  vm_compute in Hk. injection Hk as <-. vm_compute. reflexivity.
Defined.

Lemma overlay_idempotent_witness :
  let env : Env := {[ "APP_HOST" := "db" ]} in
  let v' := VStruct [(mkField "Host" "", VString "db")] in
  loadStructFromEnv env v' "APP_" = (v', None).
Proof.
  intros env v'. apply (overlay_idempotent env (VStruct Sample.host) "APP_" v').
  vm_compute. reflexivity.
Defined.

Lemma overlay_leaves_unsupported_kinds_witness :
  let env : Env := {[ "APP_TAGS" := "a,b" ]} in
  fieldAt (loadFields env (loadStructFromEnv env) Sample.tags "APP_").1 [1] =
    Some (mkField "Tags" "", VSlice []).
Proof.
  intros env.
  apply (overlay_leaves_unsupported_kinds env "APP_" Sample.tags [1]); reflexivity.
Defined.

Lemma overlay_leaves_unexported_witness :
  let env : Env := {[ "APP_LABELS" := "x" ]} in
  (∀ q, leafKey "APP_" Sample.hidden ([1] ++ q) = None) ∧
  fieldAt (loadFields env (loadStructFromEnv env) Sample.hidden "APP_").1 [1] =
    Some (mkField "labels" "", VMap true [("region", VString "eu")]).
Proof.
  intros env.
  apply (overlay_leaves_unexported env "APP_" Sample.hidden [1]); reflexivity.
Defined.

Lemma overlay_keeps_kinds_witness :
  let env : Env := {[ "APP_SERVER_TIMEOUT" := "30" ]} in
  ∃ x', fieldAt (loadFields env (loadStructFromEnv env) Sample.server "APP_").1 [0; 0] =
          Some (mkField "Timeout" "", x') ∧
        kindOf x' = kindOf (VInt Int64 0).
Proof.
  intros env.
  apply (overlay_keeps_kinds env "APP_" Sample.server [0; 0]). reflexivity.
Defined.

Lemma signed_field_value_witness :
  ∃ z n, Strconv.ParseInt "300" = inl z ∧ (- 2 ^ 63 ≤ z < 2 ^ 63)%Z ∧
         VInt Int8 44 = VInt Int8 n ∧
         (- 2 ^ (int_bits Int8 - 1) ≤ n < 2 ^ (int_bits Int8 - 1))%Z ∧
         ((n - z) mod 2 ^ int_bits Int8 = 0)%Z ∧
         ((- 2 ^ (int_bits Int8 - 1) ≤ z < 2 ^ (int_bits Int8 - 1))%Z → n = z).
Proof.
  apply (signed_field_value Int8 0 "300" (VInt Int8 44)). vm_compute. reflexivity.
Defined.

Lemma unsigned_field_value_witness :
  ∃ z n, Strconv.ParseUint "300" = inl z ∧ (0 ≤ z < 2 ^ 64)%Z ∧
         VUint Uint8 44 = VUint Uint8 n ∧
         (0 ≤ n < 2 ^ uint_bits Uint8)%Z ∧
         ((n - z) mod 2 ^ uint_bits Uint8 = 0)%Z ∧
         ((z < 2 ^ uint_bits Uint8)%Z → n = z).
Proof.
  apply (unsigned_field_value Uint8 0 "300" (VUint Uint8 44)). vm_compute. reflexivity.
Defined.

Lemma overlay_reads_leaf_keys_only_witness :
  let env1 : Env := {[ "APP_HOST" := "db"; "HOME" := "/root" ]} in
  let env2 : Env := {[ "APP_HOST" := "db" ]} in
  loadStructFromEnv env1 (VStruct Sample.host) "APP_" =
    loadStructFromEnv env2 (VStruct Sample.host) "APP_".
Proof.
  intros env1 env2. apply (overlay_reads_leaf_keys_only env1 env2 Sample.host "APP_").
  intros q k Hk. destruct q as [|[|i] [|j q]]; try discriminate Hk.
  vm_compute in Hk. injection Hk as <-. vm_compute. reflexivity.
Defined.

Lemma invalid_target_rejected_witness :
  let t := mkTarget (Some (VStruct Sample.host)) None in
  Load (Sample.world ∅) (NewLoader "" "APP_") t =
    mkOutcome (Returned (Some (FromEnvironment NotStructPointer)))
      (Some (VStruct Sample.host)) ([] ++ [CallLoadFromEnv]).
Proof.
  intros t.
  apply (invalid_target_rejected (Sample.world ∅) (NewLoader "" "APP_") t
           (Some (VStruct Sample.host)) []); [reflexivity|discriminate].
Defined.

Lemma decoder_chosen_by_suffix_witness :
  let w := Sample.worldWithFile ∅ "port: 1" in
  loadFromFile w ("/etc/app.d/service" +:+ String "." "YAML") None =
    if decide (Str.ToLower "YAML" = "json")
    then ((jsonUnmarshal w "port: 1" None).1,
          ParseJSONFailed <$> (jsonUnmarshal w "port: 1" None).2)
    else ((yamlUnmarshal w "port: 1" None).1,
          ParseYAMLFailed <$> (yamlUnmarshal w "port: 1" None).2).
Proof.
  intros w. apply (decoder_chosen_by_suffix w "/etc/app.d/service" "YAML" "port: 1" None).
  - reflexivity.
  - vm_compute. left.
Defined.

Lemma LoadFromEnv_ignores_files_witness :
  let env : Env := {[ "APP_HOST" := "db" ]} in
  let t := Sample.target Sample.host in
  LoadFromEnv (Sample.world env) "APP_" t =
    LoadFromEnv (Sample.worldWithFile env "host: x") "APP_" t ∧
  CallLoadFromFile ∉ calls (LoadFromEnv (Sample.world env) "APP_" t).
Proof.
  intros env t.
  apply (LoadFromEnv_ignores_files (Sample.world env)
           (Sample.worldWithFile env "host: x") "APP_" t).
  reflexivity.
Defined.

Lemma SetDefaults_called_last_and_once_witness :
  let w := Sample.world {[ "APP_HOST" := "db" ]} in
  let l := NewLoader "" "APP_" in
  let hook := λ v : value, v in
  let t := mkTarget (Some (VPtr (Some (VStruct Sample.host)))) (Some hook) in
  ∃ k v, calls (Load w l t) = k ++ [CallSetDefaults] ∧ (CallSetDefaults ∉ k) ∧
         final (Load w l t) = Some (hook v).
Proof.
  intros w l hook t.
  apply (proj2 (SetDefaults_called_last_and_once w l t) hook); reflexivity.
Defined.

Lemma missing_file_is_env_only_witness :
  let w := Sample.world {[ "APP_HOST" := "db" ]} in
  let t := Sample.target Sample.host in
  (result (LoadWithDefaults w "conf.yaml" "APP_" t) = result (LoadFromEnv w "APP_" t) ∧
   final (LoadWithDefaults w "conf.yaml" "APP_" t) = final (LoadFromEnv w "APP_" t)) ∧
  (result (LoadFromFile w "conf.yaml" t) = result (LoadFromEnv w "" t) ∧
   final (LoadFromFile w "conf.yaml" t) = final (LoadFromEnv w "" t)).
Proof.
  intros w t. apply (missing_file_is_env_only w "conf.yaml" "APP_" t). reflexivity.
Defined.

Lemma interpolation_spares_unexported_witness :
  let v' := VStruct [(mkField "name" "", VString "$HOME");
                     (mkField "Extra" "", VIface (Some (VString "$HOME")));
                     (mkField "Hosts" "", VSlice [VString "/root"]);
                     (mkField "Labels" "", VMap true [("home", VString "/root")])] in
  valueAt v' [SField 0] = Some (VString "$HOME").
Proof.
  intros v'.
  apply (interpolation_spares_unexported Sample.home true false Sample.mixed v' 0
           (mkField "name" ""));
    [vm_compute; reflexivity|reflexivity|reflexivity|reflexivity].
Defined.

Lemma interpolation_identity_on_inert_witness :
  substituteValue Sample.home true false (VStruct Sample.secret) =
    Some (VStruct Sample.secret).
Proof.
  apply (interpolation_identity_on_inert Sample.home true false (VStruct Sample.secret));
    reflexivity.
Defined.

Lemma interpolation_completes_if_exported_witness :
  ∃ v', substituteEnvVars Sample.home (Some (VPtr (Some (VStruct Sample2.labels)))) =
          SubstDone (Some (VPtr (Some v'))).
Proof.
  apply (interpolation_completes_if_exported Sample.home (VStruct Sample2.labels));
    reflexivity.
Defined.

Lemma overlay_failure_is_partial_witness :
  let env : Env := {[ "APP_HOST" := "db"; "APP_PORT" := "http"; "APP_NAME" := "svc" ]} in
  loadFields env (loadStructFromEnv env) Sample2.service "APP_" =
    ([(mkField "Host" "", VString "db")] ++
       (mkField "Port" "", VInt Int 0) :: [(mkField "Name" "", VString "")],
     Some (FieldBindError "Port" "APP_PORT"
             (ParseFailed (mkNumError "ParseInt" "http" ErrSyntax)))).
Proof.
  intros env.
  apply (overlay_failure_is_partial env "APP_" [(mkField "Host" "", VString "localhost")]
           [(mkField "Host" "", VString "db")] (mkField "Port" "") (VInt Int 0)
           (VInt Int 0) _ [(mkField "Name" "", VString "")]);
    vm_compute; reflexivity.
Defined.

Lemma Load_with_nothing_to_do_witness :
  let w := Sample.world Sample.home in
  let l := NewLoader "conf.yaml" "APP_" in
  let t := Sample.target Sample.host in
  Load w l t =
    mkOutcome (Returned None)
      (defaultsHook t (Some (VPtr (Some (VStruct Sample.host))))).1
      (([CallLoadFromFile] ++ [CallLoadFromEnv]) ++ [CallSubstituteEnvVars] ++
         (defaultsHook t (Some (VPtr (Some (VStruct Sample.host))))).2).
Proof.
  intros w l t.
  apply (Load_with_nothing_to_do w l t Sample.host [CallLoadFromFile]);
    [reflexivity| |reflexivity|reflexivity].
  intros q k Hk. destruct q as [|[|i] [|j q]]; try discriminate Hk.
  vm_compute in Hk. injection Hk as <-. vm_compute. reflexivity.
Defined.

End MoreClosed.

Section BaseClosed.
#[local] Existing Instance ascii_text.
#[local] Existing Instance whole_floats.
#[local] Existing Instance whole_consts.

Lemma observability_defaults_fill_zero_fields_witness :
  let o' := BaseConfig.Observability (SetObservabilityDefaults BaseSample.partial) in
  LoggingConfig.Level (ObservabilityConfig.Logging o') ≠ "" ∧
  LoggingConfig.Format (ObservabilityConfig.Logging o') ≠ "" ∧
  MetricsConfig.Port (ObservabilityConfig.Metrics o') ≠ 0%Z ∧
  MetricsConfig.Path (ObservabilityConfig.Metrics o') ≠ "" ∧
  float_is_zero (TracingConfig.Sampler (ObservabilityConfig.Tracing o')) = false.
Proof.
  intros o'.
  apply (proj1 (@observability_defaults_fill_zero_fields whole_floats whole_consts
                  BaseSample.partial eq_refl)).
Defined.

Lemma base_defaults_idempotent_commute_witness :
  let c := BaseSample.partial in
  SetServerDefaults (SetServerDefaults c) = SetServerDefaults c ∧
  SetObservabilityDefaults (SetObservabilityDefaults c) = SetObservabilityDefaults c ∧
  SetServerDefaults (SetObservabilityDefaults c) =
    SetObservabilityDefaults (SetServerDefaults c).
Proof.
  intros c.
  apply (@base_defaults_idempotent_commute whole_floats whole_consts c). reflexivity.
Defined.

End BaseClosed.
